(** * Start/stop of tagged EC2 Auto Scaling groups: a shallow embedding

    The development follows [src/lambda_function/src/main.py], class
    [CWScheduledEventManageEC2AutoScalingGroupsState].  The three boto3
    clients are the environment of the program: a [Cloud] over an abstract
    [World].  A method of the class is a function from the world it starts in
    to a [Run]: what it returned or raised, the world it left, and the events
    (API requests with their result, log records) it emitted, oldest first.

    Creating a client sends nothing to the cloud and may raise, as it does
    for a region name that is not well formed; every request may raise;
    writing a log record is taken to succeed.  [LambdaFunctionBase] (module
    [base]: the logger, [_build_response_ok], [process_event]) is not among
    the sources: log records are kept as events, the success response is a
    parameter, and [process_event] is modelled from the specification. *)

From Stdlib Require Import List String Ascii Arith Bool Lia.
From Stdlib Require Import DecimalString.
Import ListNotations.
Open Scope string_scope.
Open Scope list_scope.

(** ** Shapes of the boto3 responses read by the code *)

Record Tag := { Key : string; Value : string }.

Record Instance := { InstanceId : string }.

Record AutoScalingGroup := {
  AutoScalingGroupName : string;
  Tags : list Tag;
  Instances : list Instance
}.

Record ResourcePage := { AutoScalingGroups : list AutoScalingGroup }.

(** The dict appended to [ec2_auto_scaling_groups] (main.py, lines 38-41). *)
Record Ec2AutoScalingGroup := {
  name : string;
  ec2_instance_ids : list string
}.

(** ** The environment: exceptions, requests, events *)

Inductive BotoError :=
| ClientError (code : string)
| WaiterError (reason : string)
| InvalidRegionError (region_name : string).

(** The requests other than the paginated describe.  The first argument is the
    region the client was created for. *)
Inductive Command :=
| suspend_processes (region AutoScalingGroupName : string)
| resume_processes (region AutoScalingGroupName : string)
| stop_instances (region : string) (InstanceIds : list string)
| start_instances (region : string) (InstanceIds : list string)
| instance_running_wait (region : string) (InstanceIds : list string)
                        (Delay MaxAttempts : nat).

(** [client service region] is the exception that
    [boto3.client(service, region_name=region)] raises, if any: creating a
    client sends nothing and does not look at the world.  [listing] gives
    the pages the paginator of an autoscaling client yields and, when
    fetching the page after them raises, the exception; it reads the world
    and leaves it as it is.  [request] answers a command and gives the next
    world. *)
Record Cloud (World : Type) := {
  client : string -> string -> option BotoError;
  listing : string -> World -> list ResourcePage * option BotoError;
  request : Command -> World -> World * option BotoError
}.
Arguments client {World}.
Arguments listing {World}.
Arguments request {World}.

(** Lines 20-23 as a whole, for a region and a world: the pages that
    creating the autoscaling client and iterating its paginator give, and
    the exception that ends them, if any.  No page is seen when the client
    cannot be created. *)
Definition paginate {World} (cloud : Cloud World) (region : string) (w : World)
  : list ResourcePage * option BotoError :=
  match client cloud "autoscaling" region with
  | Some e => ([], Some e)
  | None => listing cloud region w
  end.

Inductive LogLevel := INFO | DEBUG.

Inductive Event :=
| EvDescribe (region : string) (raised : option BotoError)
| EvCommand (c : Command) (raised : option BotoError)
| EvLog (level : LogLevel) (msg : string) (args : list string).

Inductive Outcome (A : Type) :=
| Returned (a : A)
| Raised (e : BotoError).
Arguments Returned {A}.
Arguments Raised {A}.

Record Run (World A : Type) := {
  outcome : Outcome A;
  world_after : World;
  events : list Event
}.
Arguments Build_Run {World A}.
Arguments outcome {World A}.
Arguments world_after {World A}.
Arguments events {World A}.

Definition M (World A : Type) : Type := World -> Run World A.

Definition ret {World A} (a : A) : M World A :=
  fun w => {| outcome := Returned a; world_after := w; events := [] |}.

(** Sequencing: an exception of the first part is the result, and the second
    part does not run. *)
Definition bind {World A B} (m : M World A) (k : A -> M World B) : M World B :=
  fun w =>
    let r := m w in
    match outcome r with
    | Returned a =>
        let r' := k a (world_after r) in
        {| outcome := outcome r';
           world_after := world_after r';
           events := events r ++ events r' |}
    | Raised e =>
        {| outcome := Raised e;
           world_after := world_after r;
           events := events r |}
    end.

Declare Scope boto_scope.
Delimit Scope boto_scope with boto.
Notation "x <- m ;; k" := (bind m (fun x => k))
  (at level 61, m at next level, right associativity) : boto_scope.
Notation "m ;; k" := (bind m (fun _ => k))
  (at level 61, right associativity) : boto_scope.
Open Scope boto_scope.

(** [for x in xs: body(x)] *)
Fixpoint for_each {World A} (xs : list A) (body : A -> M World unit)
  : M World unit :=
  match xs with
  | [] => ret tt
  | x :: xs' => body x ;; for_each xs' body
  end.

(** [x in xs] on strings *)
Definition str_in (x : string) (xs : list string) : bool :=
  existsb (String.eqb x) xs.

(** [str.split(sep)] for a separator of one character *)
Fixpoint split (sep : ascii) (s : string) : list string :=
  match s with
  | EmptyString => [EmptyString]
  | String c s' =>
      if Ascii.eqb c sep then EmptyString :: split sep s'
      else match split sep s' with
           | [] => [String c EmptyString]
           | word :: words => String c word :: words
           end
  end.

(** [str(n)] *)
Definition str (n : nat) : string := NilZero.string_of_uint (Nat.to_uint n).

(** [os.environ], as far as the class reads it *)
Record Environ := {
  PARAM_ACTION : string;
  PARAM_RESOURCE_TAG_KEY : string;
  PARAM_RESOURCE_TAG_VALUE : string;
  PARAM_AWS_REGIONS : string
}.

Definition ACTION (env : Environ) : string := PARAM_ACTION env.
Definition RESOURCE_TAG_KEY (env : Environ) : string := PARAM_RESOURCE_TAG_KEY env.
Definition RESOURCE_TAG_VALUE (env : Environ) : string := PARAM_RESOURCE_TAG_VALUE env.
Definition AWS_REGIONS (env : Environ) : list string :=
  split "," (PARAM_AWS_REGIONS env).

(** ** The invocation *)

(** The event payload is a JSON document. *)
#[local] Unset Elimination Schemes.
Inductive Json :=
| JNull
| JBool (b : bool)
| JNumber (n : nat)
| JString (s : string)
| JArray (items : list Json)
| JObject (members : list (string * Json)).
#[local] Set Elimination Schemes.

Definition LambdaEvent : Type := Json.

(** The context object the Lambda runtime passes to a Python handler. *)
Record LambdaContext := {
  function_name : string;
  function_version : string;
  invoked_function_arn : string;
  memory_limit_in_mb : nat;
  aws_request_id : string;
  log_group_name : string;
  log_stream_name : string;
  remaining_time_in_millis : nat
}.

(** ** The class *)

Section CWScheduledEventManageEC2AutoScalingGroupsState.

Context {World : Type} (cloud : Cloud World).

(** The response of [LambdaFunctionBase._build_response_ok]: module [base] is
    not among the sources, so its envelope is a parameter. *)
Context {Response : Type} (_build_response_ok : Response).

Definition log (level : LogLevel) (msg : string) (args : list string)
  : M World unit :=
  fun w => {| outcome := Returned tt; world_after := w;
              events := [EvLog level msg args] |}.

(** One command sent to the cloud. *)
Definition send (c : Command) : M World unit :=
  fun w =>
    let (w', raised) := request cloud c w in
    {| outcome := match raised with Some e => Raised e | None => Returned tt end;
       world_after := w';
       events := [EvCommand c raised] |}.

(** [boto3.client(service, region_name=region)]: no request is sent. *)
Definition boto3_client (service region : string) : M World unit :=
  fun w =>
    {| outcome := match client cloud service region with
                  | Some e => Raised e
                  | None => Returned tt
                  end;
       world_after := w;
       events := [] |}.

(** Iterating [get_paginator('describe_auto_scaling_groups').paginate()]
    to its end: one describe request per page, and one more that raises when
    the listing breaks off. *)
Definition describe_auto_scaling_groups (region : string)
  : M World (list ResourcePage) :=
  fun w =>
    let (pages, raised) := listing cloud region w in
    {| outcome := match raised with Some e => Raised e | None => Returned pages end;
       world_after := w;
       events := map (fun _ => EvDescribe region None) pages
                 ++ match raised with
                    | Some e => [EvDescribe region (Some e)]
                    | None => []
                    end |}.

(** Lines 32-34: the instance ids of a group, in order. *)
Definition collect_instance_ids (resource : AutoScalingGroup) : list string :=
  fold_left (fun ec2_instance_ids instance =>
               ec2_instance_ids ++ [InstanceId instance])
            (Instances resource) [].

(** Lines 29-42: the loop over the tags of one group. *)
Definition scan_tags (tag_key tag_value : string) (resource : AutoScalingGroup)
    (ec2_auto_scaling_groups : list Ec2AutoScalingGroup)
  : list Ec2AutoScalingGroup :=
  fold_left
    (fun acc tag =>
       if (Key tag =? tag_key)%string && (Value tag =? tag_value)%string
          && (0 <? List.length (Instances resource))%nat
       then acc ++ [ {| name := AutoScalingGroupName resource;
                        ec2_instance_ids := collect_instance_ids resource |} ]
       else acc)
    (Tags resource) ec2_auto_scaling_groups.

(** Lines 26-44: the loops over the pages and over the groups of a page. *)
Definition scan_pages (tag_key tag_value : string)
    (resource_pages : list ResourcePage) : list Ec2AutoScalingGroup :=
  fold_left
    (fun acc resource_page =>
       fold_left (fun acc resource => scan_tags tag_key tag_value resource acc)
                 (AutoScalingGroups resource_page) acc)
    resource_pages [].

(** The list is local to the method: when a page request raises, the groups
    collected from the pages before it are lost with it. *)
Definition _get_ec2_auto_scaling_groups_by_tag
    (aws_region_name tag_key tag_value : string)
  : M World (list Ec2AutoScalingGroup) :=
  boto3_client "autoscaling" aws_region_name ;;
  resource_pages <- describe_auto_scaling_groups aws_region_name ;;
  ret (scan_pages tag_key tag_value resource_pages).

Definition _stop_ec2_auto_scaling_groups (aws_region_name : string)
    (ec2_auto_scaling_groups : list Ec2AutoScalingGroup) : M World unit :=
  boto3_client "autoscaling" aws_region_name ;;
  boto3_client "ec2" aws_region_name ;;
  log INFO "> Stopping EC2 AutoScaling groups." [] ;;
  for_each ec2_auto_scaling_groups (fun ec2_auto_scaling_group =>
    log DEBUG ">> Stopping AutoScaling Group %s." [name ec2_auto_scaling_group] ;;
    send (suspend_processes aws_region_name (name ec2_auto_scaling_group)) ;;
    for_each (ec2_instance_ids ec2_auto_scaling_group) (fun ec2_instance_id =>
      log DEBUG ">>> Stopping EC2: %s." [ec2_instance_id] ;;
      send (stop_instances aws_region_name [ec2_instance_id])) ;;
    log INFO ">> Auto Scaling Group %s => [STOPPED]." [name ec2_auto_scaling_group]).

(** [get_waiter("instance_running")] (line 74) looks up a waiter that the
    ec2 service defines: it sends nothing and does not raise. *)
Definition _start_ec2_auto_scaling_groups (aws_region_name : string)
    (ec2_auto_scaling_groups : list Ec2AutoScalingGroup) : M World unit :=
  boto3_client "autoscaling" aws_region_name ;;
  boto3_client "ec2" aws_region_name ;;
  log INFO "> Starting EC2 AutoScaling groups." [] ;;
  for_each ec2_auto_scaling_groups (fun ec2_auto_scaling_group =>
    log DEBUG ">> Starting AutoScaling Group %s." [name ec2_auto_scaling_group] ;;
    for_each (ec2_instance_ids ec2_auto_scaling_group) (fun ec2_instance_id =>
      log DEBUG ">>> Starting EC2: %s." [ec2_instance_id] ;;
      send (start_instances aws_region_name [ec2_instance_id])) ;;
    send (instance_running_wait aws_region_name
            (ec2_instance_ids ec2_auto_scaling_group) 15 30) ;;
    send (resume_processes aws_region_name (name ec2_auto_scaling_group)) ;;
    log INFO ">> Auto Scaling Group %s => [STARTED]." [name ec2_auto_scaling_group]).

(** Lines 106-120: the body of the loop over the regions. *)
Definition execute_region (env : Environ) (aws_region_name : string)
  : M World unit :=
  log INFO "> Searching Auto Scaling Groups in region %s having tag %s=%s."
      [aws_region_name; RESOURCE_TAG_KEY env; RESOURCE_TAG_VALUE env] ;;
  ec2_auto_scaling_groups <-
    _get_ec2_auto_scaling_groups_by_tag aws_region_name
      (RESOURCE_TAG_KEY env) (RESOURCE_TAG_VALUE env) ;;
  log INFO "> Found %s EC2 Auto Scaling Groups in region %s having tag %s=%s."
      [str (List.length ec2_auto_scaling_groups); aws_region_name;
       RESOURCE_TAG_KEY env; RESOURCE_TAG_VALUE env] ;;
  if (0 <? List.length ec2_auto_scaling_groups)%nat then
    if str_in (ACTION env) ["enable"; "start"] then
      _start_ec2_auto_scaling_groups aws_region_name ec2_auto_scaling_groups
    else if str_in (ACTION env) ["disable"; "stop"] then
      _stop_ec2_auto_scaling_groups aws_region_name ec2_auto_scaling_groups
    else ret tt
  else ret tt.

Definition _execute (env : Environ) (event : LambdaEvent) (context : LambdaContext)
  : M World Response :=
  log INFO "Starting the operation." [] ;;
  for_each (AWS_REGIONS env) (execute_region env) ;;
  log INFO "Operation completed successfully." [] ;;
  ret _build_response_ok.

(** Modelled from the spec: [LambdaFunctionBase.process_event], of module
    [base], which is not among the sources.  The specification has the
    event payload and the execution context unused beyond triggering the
    invocation, and the invocation return the success envelope on
    completion: the model hands both to [_execute] and returns what
    [_execute] returns. *)
Definition process_event (env : Environ) (event : LambdaEvent)
    (context : LambdaContext) : M World Response :=
  _execute env event context.

(** Lines 127-129.  The class reads the environment when it is defined. *)
Definition lambda_handler (env : Environ) (event : LambdaEvent)
    (context : LambdaContext) : M World Response :=
  process_event env event context.

End CWScheduledEventManageEC2AutoScalingGroupsState.

Arguments log {World}.
Arguments _execute {World} cloud {Response} _build_response_ok.
Arguments process_event {World} cloud {Response} _build_response_ok.
Arguments lambda_handler {World} cloud {Response} _build_response_ok.

(** ** Reading a run *)

(** The exception an event ended with, if any. *)
Definition raised_by (ev : Event) : option BotoError :=
  match ev with
  | EvDescribe _ raised => raised
  | EvCommand _ raised => raised
  | EvLog _ _ _ => None
  end.

Definition clean (evs : list Event) : Prop :=
  Forall (fun ev => raised_by ev = None) evs.

(** The commands of a trace with their results, log records and describe
    requests left out. *)
Fixpoint api_calls (evs : list Event) : list (Command * option BotoError) :=
  match evs with
  | [] => []
  | EvCommand c raised :: evs' => (c, raised) :: api_calls evs'
  | _ :: evs' => api_calls evs'
  end.

Definition commands (evs : list Event) : list Command :=
  map fst (api_calls evs).

(** The world after the commands of a trace were answered one by one. *)
Fixpoint replay {World} (cloud : Cloud World) (evs : list Event) (w : World)
  : World :=
  match evs with
  | [] => w
  | EvCommand c _ :: evs' => replay cloud evs' (fst (request cloud c w))
  | _ :: evs' => replay cloud evs' w
  end.

Definition command_region (c : Command) : string :=
  match c with
  | suspend_processes region _ => region
  | resume_processes region _ => region
  | stop_instances region _ => region
  | start_instances region _ => region
  | instance_running_wait region _ _ _ => region
  end.

Definition is_command (ev : Event) : bool :=
  match ev with EvCommand _ _ => true | _ => false end.

(** A describe request for [region], and nothing else. *)
Definition is_describe_of (region : string) (ev : Event) : bool :=
  match ev with
  | EvDescribe region' _ => (region' =? region)%string
  | _ => false
  end.

(** What the action branch for [region] may emit: log records and commands
    sent to that region. *)
Definition action_event (region : string) (ev : Event) : bool :=
  match ev with
  | EvCommand c _ => (command_region c =? region)%string
  | EvLog _ _ _ => true
  | EvDescribe _ _ => false
  end.

(** A wait carries the waiter configuration of line 92. *)
Definition wait_config_ok (ev : Event) : bool :=
  match ev with
  | EvCommand (instance_running_wait _ _ delay max_attempts) _ =>
      (delay =? 15)%nat && (max_attempts =? 30)%nat
  | _ => true
  end.

(** A command of the stop workflow: a suspend, or a stop of one instance. *)
Definition stop_workflow_command (c : Command) : bool :=
  match c with
  | suspend_processes _ _ => true
  | stop_instances _ [_] => true
  | _ => false
  end.

Definition stop_workflow_event (ev : Event) : bool :=
  match ev with
  | EvCommand c _ => stop_workflow_command c
  | EvLog _ _ _ => true
  | EvDescribe _ _ => false
  end.

(** ** What the claims are stated against *)

(** All groups of a listing, page after page. *)
Definition listed (resource_pages : list ResourcePage) : list AutoScalingGroup :=
  flat_map AutoScalingGroups resource_pages.

(** The entry a group is recorded as. *)
Definition match_of (resource : AutoScalingGroup) : Ec2AutoScalingGroup :=
  {| name := AutoScalingGroupName resource;
     ec2_instance_ids := map InstanceId (Instances resource) |}.

Definition tag_matches (tag_key tag_value : string) (tag : Tag) : bool :=
  (Key tag =? tag_key)%string && (Value tag =? tag_value)%string.

Definition has_tag_pair (tag_key tag_value : string) (resource : AutoScalingGroup)
  : Prop :=
  exists tag, In tag (Tags resource) /\ Key tag = tag_key /\ Value tag = tag_value.

(** How often a group is recorded: once per matching tag, never when it has
    no instance. *)
Definition multiplicity (tag_key tag_value : string) (resource : AutoScalingGroup)
  : nat :=
  match Instances resource with
  | [] => 0
  | _ :: _ => List.length (filter (tag_matches tag_key tag_value) (Tags resource))
  end.

(** The commands of the stop workflow when nothing raises. *)
Definition stop_plan_of (region : string) (g : Ec2AutoScalingGroup) : list Command :=
  suspend_processes region (name g)
  :: map (fun i => stop_instances region [i]) (ec2_instance_ids g).

Definition stop_plan (region : string) (groups : list Ec2AutoScalingGroup)
  : list Command :=
  flat_map (stop_plan_of region) groups.

(** The commands of the start workflow when nothing raises. *)
Definition start_calls (region : string) (ids : list string) : list Command :=
  map (fun i => start_instances region [i]) ids.

Definition start_plan_of (region : string) (g : Ec2AutoScalingGroup) : list Command :=
  start_calls region (ec2_instance_ids g)
  ++ [instance_running_wait region (ec2_instance_ids g) 15 30;
      resume_processes region (name g)].

Definition start_plan (region : string) (groups : list Ec2AutoScalingGroup)
  : list Command :=
  flat_map (start_plan_of region) groups.

(** The two log records of the loop over the regions (lines 106 and 112). *)
Definition searching (env : Environ) (region : string) : Event :=
  EvLog INFO "> Searching Auto Scaling Groups in region %s having tag %s=%s."
    [region; RESOURCE_TAG_KEY env; RESOURCE_TAG_VALUE env].

Definition found (env : Environ) (region : string) (n : nat) : Event :=
  EvLog INFO "> Found %s EC2 Auto Scaling Groups in region %s having tag %s=%s."
    [str n; region; RESOURCE_TAG_KEY env; RESOURCE_TAG_VALUE env].




(** ** Further readings of the configuration, the listing and the trace *)

(** [sep in s] for a separator of one character *)
Fixpoint contains (sep : ascii) (s : string) : bool :=
  match s with
  | EmptyString => false
  | String c s' => Ascii.eqb c sep || contains sep s'
  end.

(** [sep.join(words)] *)
Definition join (sep : ascii) (words : list string) : string :=
  String.concat (String sep EmptyString) words.

(** The test of line 30 for a whole group: one of its tags has the key and
    the value, and it has an instance. *)
Definition keeps (tag_key tag_value : string) (resource : AutoScalingGroup)
  : bool :=
  existsb (tag_matches tag_key tag_value) (Tags resource)
  && (0 <? List.length (Instances resource))%nat.

(** A command of the start workflow: a start of one instance, a wait, or a
    resume. *)
Definition start_workflow_command (c : Command) : bool :=
  match c with
  | start_instances _ [_] => true
  | instance_running_wait _ _ _ _ => true
  | resume_processes _ _ => true
  | _ => false
  end.

(** A wait names at least one instance. *)
Definition wait_names_instances (ev : Event) : bool :=
  match ev with
  | EvCommand (instance_running_wait _ ids _ _) _ => (0 <? List.length ids)%nat
  | _ => true
  end.

(** The last log record of [_execute] (line 122). *)
Definition completed : Event :=
  EvLog INFO "Operation completed successfully." [].

(** The action branch of lines 116-120, on the groups discovery gave. *)
Definition branch {World} (cloud : Cloud World) (env : Environ)
    (region : string) (groups : list Ec2AutoScalingGroup) : M World unit :=
  if (0 <? List.length groups)%nat then
    if str_in (ACTION env) ["enable"; "start"] then
      _start_ec2_auto_scaling_groups cloud region groups
    else if str_in (ACTION env) ["disable"; "stop"] then
      _stop_ec2_auto_scaling_groups cloud region groups
    else ret tt
  else ret tt.

(** ** Judgements on methods *)

(** Every event of every run of [m] satisfies [P]. *)
Definition emits {World A} (P : Event -> Prop) (m : M World A) : Prop :=
  forall w, Forall P (events (m w)).

(** The commands of a run of [m] are the [plan] when [m] returns, and the
    plan up to the command that raised otherwise. *)
Definition follows {World A} (plan : list Command) (m : M World A) : Prop :=
  forall w, exists rest,
    plan = commands (events (m w)) ++ rest
    /\ (forall a, outcome (m w) = Returned a -> rest = []).

(** A run that returned saw no exception; a run that raised ends with the
    request that raised, the first one to do so, or saw no request raise and
    ends with the exception of a client that could not be created. *)
Definition fail_stop {World A} (cloud : Cloud World) (r : Run World A) : Prop :=
  match outcome r with
  | Returned _ => clean (events r)
  | Raised e =>
      (exists pre ev,
         events r = pre ++ [ev] /\ raised_by ev = Some e /\ clean pre)
      \/ (clean (events r)
          /\ exists service region, client cloud service region = Some e)
  end.

(** [m] stops at the first exception, and the world it leaves is the one its
    commands made: nothing is taken back. *)
Definition sound {World A} (cloud : Cloud World) (m : M World A) : Prop :=
  forall w,
    fail_stop cloud (m w) /\ world_after (m w) = replay cloud (events (m w)) w.

(** ** A small cloud to run the code on *)

Module Sim.

Record World := {
  regions : list (string * list ResourcePage);
  suspended : list string;
  stopped : list string;
  boot_polls : nat;
  protected : list string
}.

Fixpoint lookup (region : string) (rs : list (string * list ResourcePage))
  : option (list ResourcePage) :=
  match rs with
  | [] => None
  | (r, pages) :: rs' => if (r =? region)%string then Some pages else lookup region rs'
  end.

Definition without (x : string) (xs : list string) : list string :=
  filter (fun y => negb (y =? x)%string) xs.

(** A region name must not be empty and holds no blank. *)
Definition sim_client (service region : string) : option BotoError :=
  if (region =? "")%string || contains " " region
  then Some (InvalidRegionError region)
  else None.

Definition sim_paginate (region : string) (w : World)
  : list ResourcePage * option BotoError :=
  match lookup region (regions w) with
  | Some pages => (pages, None)
  | None => ([], Some (ClientError "EndpointConnectionError"))
  end.

(** Stopping or starting a protected instance is refused.  An instance needs
    [boot_polls] polls to report running once started, so a wait with fewer
    attempts gives up. *)
Definition sim_request (c : Command) (w : World) : World * option BotoError :=
  match c with
  | suspend_processes _ n =>
      ({| regions := regions w; suspended := n :: suspended w;
          stopped := stopped w; boot_polls := boot_polls w;
          protected := protected w |}, None)
  | resume_processes _ n =>
      ({| regions := regions w; suspended := without n (suspended w);
          stopped := stopped w; boot_polls := boot_polls w;
          protected := protected w |}, None)
  | stop_instances _ ids =>
      if existsb (fun i => str_in i (protected w)) ids
      then (w, Some (ClientError "UnauthorizedOperation"))
      else ({| regions := regions w; suspended := suspended w;
               stopped := ids ++ stopped w; boot_polls := boot_polls w;
               protected := protected w |}, None)
  | start_instances _ ids =>
      if existsb (fun i => str_in i (protected w)) ids
      then (w, Some (ClientError "UnauthorizedOperation"))
      else ({| regions := regions w; suspended := suspended w;
               stopped := fold_right without (stopped w) ids;
               boot_polls := boot_polls w; protected := protected w |}, None)
  | instance_running_wait _ ids _ max_attempts =>
      if (boot_polls w <=? max_attempts)%nat then (w, None)
      else (w, Some (WaiterError "Max attempts exceeded"))
  end.

Definition cloud : Cloud World :=
  {| client := sim_client; listing := sim_paginate; request := sim_request |}.

Definition env_prod : Tag := {| Key := "env"; Value := "prod" |}.

Definition G1 : AutoScalingGroup :=
  {| AutoScalingGroupName := "G1"; Tags := [env_prod];
     Instances := [ {| InstanceId := "i-1" |}; {| InstanceId := "i-2" |} ] |}.

Definition G2 : AutoScalingGroup :=
  {| AutoScalingGroupName := "G2"; Tags := [];
     Instances := [ {| InstanceId := "i-3" |} ] |}.

(** Tagged, and without instances. *)
Definition G3 : AutoScalingGroup :=
  {| AutoScalingGroupName := "G3"; Tags := [env_prod]; Instances := [] |}.

(** A listing that gives the same tag twice. *)
Definition G4 : AutoScalingGroup :=
  {| AutoScalingGroupName := "G4"; Tags := [env_prod; env_prod];
     Instances := [ {| InstanceId := "i-4" |} ] |}.

Definition us_east_1 : list ResourcePage :=
  [ {| AutoScalingGroups := [G1] |}; {| AutoScalingGroups := [G2; G3] |} ].

Definition world0 : World :=
  {| regions := [("us-east-1", us_east_1);
                 ("eu-west-1", [ {| AutoScalingGroups := [] |} ])];
     suspended := []; stopped := []; boot_polls := 2; protected := [] |}.

(** As [world0], with instances that take 31 polls to boot. *)
Definition world_slow : World :=
  {| regions := regions world0; suspended := ["G1"]; stopped := ["i-1"; "i-2"];
     boot_polls := 31; protected := [] |}.

(** As [world0], with [i-2] protected. *)
Definition world_protected : World :=
  {| regions := regions world0; suspended := []; stopped := [];
     boot_polls := 2; protected := ["i-2"] |}.

(** One region whose only group is listed with its tag twice. *)
Definition world_twice : World :=
  {| regions := [("us-east-1", [ {| AutoScalingGroups := [G4] |} ])];
     suspended := []; stopped := []; boot_polls := 2; protected := [] |}.

Definition environ (action aws_regions : string) : Environ :=
  {| PARAM_ACTION := action; PARAM_RESOURCE_TAG_KEY := "env";
     PARAM_RESOURCE_TAG_VALUE := "prod"; PARAM_AWS_REGIONS := aws_regions |}.

Definition m_G1 : Ec2AutoScalingGroup :=
  {| name := "G1"; ec2_instance_ids := ["i-1"; "i-2"] |}.

Definition m_G4 : Ec2AutoScalingGroup :=
  {| name := "G4"; ec2_instance_ids := ["i-4"] |}.

(** The payload of a scheduled event, and a context. *)
Definition scheduled_event : LambdaEvent :=
  JObject [("source", JString "aws.events");
           ("detail-type", JString "Scheduled Event");
           ("resources", JArray [JString "rule/every-evening"]);
           ("detail", JObject [])].

Definition context : LambdaContext :=
  {| function_name := "manage-asg-state"; function_version := "$LATEST";
     invoked_function_arn := "arn:aws:lambda:us-east-1:function:manage-asg-state";
     memory_limit_in_mb := 128; aws_request_id := "request-1";
     log_group_name := "/aws/lambda/manage-asg-state";
     log_stream_name := "stream-1"; remaining_time_in_millis := 4500 |}.

(** Another payload and another context. *)
Definition manual_event : LambdaEvent := JObject [("stop", JBool true)].

Definition context' : LambdaContext :=
  {| function_name := "manage-asg-state"; function_version := "7";
     invoked_function_arn := "arn:aws:lambda:us-east-1:function:manage-asg-state:7";
     memory_limit_in_mb := 256; aws_request_id := "request-2";
     log_group_name := "/aws/lambda/manage-asg-state";
     log_stream_name := "stream-2"; remaining_time_in_millis := 3000 |}.

End Sim.

(** The groups of [Sim.us_east_1] once more, in another region and on pages
    cut elsewhere. *)
Module Paged.

Definition us_west_2 : list ResourcePage :=
  [ {| AutoScalingGroups := [] |};
    {| AutoScalingGroups := [Sim.G1; Sim.G2; Sim.G3] |} ].

Definition world : Sim.World :=
  {| Sim.regions := [("us-east-1", Sim.us_east_1); ("us-west-2", us_west_2)];
     Sim.suspended := []; Sim.stopped := []; Sim.boot_polls := 2;
     Sim.protected := [] |}.

End Paged.

(** * Properties *)

(** ** Lists *)

Lemma fold_left_flat_map {A B} (f : list B -> A -> list B) (h : A -> list B) :
  (forall acc x, f acc x = acc ++ h x) ->
  forall l acc, fold_left f l acc = acc ++ flat_map h l.
Proof.
  intros Hf l; induction l as [|x l IH]; intros acc; simpl.
  - now rewrite app_nil_r.
  - now rewrite Hf, IH, app_assoc.
Qed.

Lemma flat_map_singleton {A B} (f : A -> B) (l : list A) :
  flat_map (fun x => [f x]) l = map f l.
Proof. induction l; simpl; congruence. Qed.

Lemma in_repeat_iff {A} (x y : A) (n : nat) :
  In x (repeat y n) <-> x = y /\ 0 < n.
Proof.
  split.
  - intros H. split; [now apply repeat_spec in H|].
    destruct n; [destruct H | lia].
  - intros [-> Hn]. destruct n; [lia | now left].
Qed.

(** If a list ends where another goes on, an element of the whole lies in
    one of the two parts. *)
Lemma app_eq_mid {A} (l1 l2 pre post : list A) (x : A) :
  l1 ++ l2 = pre ++ x :: post ->
  (exists mid, l1 = pre ++ x :: mid /\ post = mid ++ l2)
  \/ (exists pre', pre = l1 ++ pre' /\ l2 = pre' ++ x :: post).
Proof.
  revert pre; induction l1 as [|a l1 IH]; intros pre H; simpl in H.
  - right. now exists pre.
  - destruct pre as [|b pre]; simpl in H; injection H as -> H.
    + left. now exists l1.
    + destruct (IH _ H) as [(mid & -> & ->) | (pre' & -> & ->)].
      * left. now exists mid.
      * right. now exists pre'.
Qed.

(** An element that a list does not hold can only be the one after it. *)
Lemma snoc_eq_mid {A} (l pre post : list A) (a x : A) :
  l ++ [a] = pre ++ x :: post -> ~ In x l ->
  pre = l /\ x = a /\ post = [].
Proof.
  intros H Hx. apply app_eq_mid in H.
  destruct H as [(mid & -> & _) | (pre' & -> & H)].
  - exfalso. apply Hx, in_elt.
  - destruct pre' as [|b pre']; simpl in H.
    + injection H as -> <-. now rewrite app_nil_r.
    + injection H as _ H. now destruct pre'.
Qed.

(** ** Discovery, without the cloud *)

Lemma collect_instance_ids_map (resource : AutoScalingGroup) :
  collect_instance_ids resource = map InstanceId (Instances resource).
Proof.
  unfold collect_instance_ids.
  rewrite (fold_left_flat_map _ (fun i => [InstanceId i])) by reflexivity.
  simpl. apply flat_map_singleton.
Qed.

Lemma scan_tags_repeat (tag_key tag_value : string) (resource : AutoScalingGroup)
    (acc : list Ec2AutoScalingGroup) :
  scan_tags tag_key tag_value resource acc
  = acc ++ repeat (match_of resource) (multiplicity tag_key tag_value resource).
Proof.
  unfold scan_tags, multiplicity, match_of.
  rewrite collect_instance_ids_map.
  set (entry := {| name := _; ec2_instance_ids := _ |}).
  generalize (Tags resource) as tags.
  destruct (Instances resource) as [|i ins] eqn:Hi; simpl.
  - intros tags; revert acc; induction tags as [|t tags IH]; intros acc; simpl.
    + now rewrite app_nil_r.
    + rewrite andb_false_r. apply IH.
  - intros tags; revert acc; induction tags as [|t tags IH]; intros acc; simpl.
    + now rewrite app_nil_r.
    + rewrite andb_true_r. fold (tag_matches tag_key tag_value t).
      destruct (tag_matches tag_key tag_value t); simpl.
      * rewrite IH, <- app_assoc. reflexivity.
      * apply IH.
Qed.

(** The three nested loops as one expression: every group of the listing, in
    listing order, once per matching tag when it has an instance. *)
Lemma scan_pages_flat_map (tag_key tag_value : string)
    (resource_pages : list ResourcePage) :
  scan_pages tag_key tag_value resource_pages
  = flat_map (fun resource =>
                repeat (match_of resource)
                       (multiplicity tag_key tag_value resource))
             (listed resource_pages).
Proof.
  unfold scan_pages, listed.
  rewrite (fold_left_flat_map _
    (fun page => flat_map (fun resource =>
        repeat (match_of resource) (multiplicity tag_key tag_value resource))
      (AutoScalingGroups page))).
  - simpl. induction resource_pages as [|page pages IH]; simpl.
    + reflexivity.
    + now rewrite flat_map_app, IH.
  - intros acc page. apply fold_left_flat_map.
    intros acc' resource. apply scan_tags_repeat.
Qed.

Lemma tag_matches_true (tag_key tag_value : string) (tag : Tag) :
  tag_matches tag_key tag_value tag = true
  <-> Key tag = tag_key /\ Value tag = tag_value.
Proof.
  unfold tag_matches. now rewrite andb_true_iff, !String.eqb_eq.
Qed.

Lemma multiplicity_pos (tag_key tag_value : string) (resource : AutoScalingGroup) :
  0 < multiplicity tag_key tag_value resource
  <-> has_tag_pair tag_key tag_value resource /\ Instances resource <> [].
Proof.
  unfold multiplicity, has_tag_pair.
  destruct (Instances resource) as [|i ins].
  - split; [lia | now intros [_ H]].
  - split.
    + intros H. split; [|discriminate].
      destruct (filter _ _) as [|t ts] eqn:Hf; [simpl in H; lia|].
      assert (Ht : In t (filter (tag_matches tag_key tag_value) (Tags resource)))
        by (rewrite Hf; now left).
      apply filter_In in Ht. destruct Ht as [Ht Hm].
      exists t. split; [assumption | now apply tag_matches_true].
    + intros [(t & Ht & Hk & Hv) _].
      assert (Hin : In t (filter (tag_matches tag_key tag_value) (Tags resource)))
        by (apply filter_In; split; [assumption | now apply tag_matches_true]).
      destruct (filter _ _); [destruct Hin | simpl; lia].
Qed.

Lemma scan_pages_In (tag_key tag_value : string)
    (resource_pages : list ResourcePage) (m : Ec2AutoScalingGroup) :
  In m (scan_pages tag_key tag_value resource_pages)
  <-> exists resource,
        In resource (listed resource_pages)
        /\ m = match_of resource
        /\ has_tag_pair tag_key tag_value resource
        /\ Instances resource <> [].
Proof.
  rewrite scan_pages_flat_map, in_flat_map.
  split; intros (resource & Hin & H); exists resource.
  - apply in_repeat_iff in H. destruct H as [-> Hn].
    apply multiplicity_pos in Hn. tauto.
  - split; [assumption|]. apply in_repeat_iff.
    split; [tauto | apply multiplicity_pos; tauto].
Qed.

(** ** Traces *)

Lemma api_calls_app (evs1 evs2 : list Event) :
  api_calls (evs1 ++ evs2) = api_calls evs1 ++ api_calls evs2.
Proof.
  induction evs1 as [|[r o|c o|l s a] evs1 IH]; simpl; congruence.
Qed.

Lemma commands_app (evs1 evs2 : list Event) :
  commands (evs1 ++ evs2) = commands evs1 ++ commands evs2.
Proof. unfold commands. now rewrite api_calls_app, map_app. Qed.

Lemma replay_app {World} (cloud : Cloud World) (evs1 evs2 : list Event) (w : World) :
  replay cloud (evs1 ++ evs2) w = replay cloud evs2 (replay cloud evs1 w).
Proof.
  revert w; induction evs1 as [|[r o|c o|l s a] evs1 IH]; intros w; simpl; auto.
Qed.

Lemma clean_app (evs1 evs2 : list Event) :
  clean (evs1 ++ evs2) <-> clean evs1 /\ clean evs2.
Proof. apply Forall_app. Qed.

Lemma api_calls_In (evs : list Event) (c : Command) (o : option BotoError) :
  In (c, o) (api_calls evs) <-> In (EvCommand c o) evs.
Proof.
  induction evs as [|[r o'|c' o'|l s a] evs IH]; simpl.
  - tauto.
  - rewrite IH. split; [auto | intros [H|H]; [discriminate | assumption]].
  - rewrite IH. split; (intros [H|H]; [left; congruence | now right]).
  - rewrite IH. split; [auto | intros [H|H]; [discriminate | assumption]].
Qed.

(** A request that raised is the last event of a run that stops at the first
    exception, and its exception is the outcome. *)
Lemma clean_no_raise (pre post : list Event) (ev : Event) (e : BotoError) :
  clean (pre ++ ev :: post) -> raised_by ev = Some e -> False.
Proof.
  intros H Hr. apply clean_app in H. destruct H as [_ H].
  inversion H; subst. congruence.
Qed.

Lemma fail_stop_raised {World A} {cloud : Cloud World} (r : Run World A)
    pre ev e post :
  fail_stop cloud r -> events r = pre ++ ev :: post -> raised_by ev = Some e ->
  post = [] /\ outcome r = Raised e /\ clean pre.
Proof.
  unfold fail_stop. intros H Hev Hr.
  destruct (outcome r) as [a|e'].
  - rewrite Hev in H. exfalso. eapply clean_no_raise; eauto.
  - destruct H as [(pre' & ev' & Hev' & Hr' & Hc) | [Hc _]].
    + rewrite Hev in Hev'. symmetry in Hev'.
      apply snoc_eq_mid in Hev'.
      * destruct Hev' as (-> & -> & ->). repeat split; [congruence | assumption].
      * intros Hin. unfold clean in Hc. rewrite Forall_forall in Hc.
        apply Hc in Hin. congruence.
    + rewrite Hev in Hc. exfalso. eapply clean_no_raise; eauto.
Qed.

(** Whatever is followed by another event did not raise. *)
Lemma fail_stop_before {World A} {cloud : Cloud World} (r : Run World A)
    pre ev post :
  fail_stop cloud r -> events r = pre ++ ev :: post -> clean pre.
Proof.
  unfold fail_stop. intros H Hev.
  destruct (outcome r) as [a|e'].
  - rewrite Hev in H. now apply clean_app in H.
  - destruct H as [(pre' & ev' & Hev' & Hr' & Hc) | [Hc _]].
    + rewrite Hev in Hev'. symmetry in Hev'. apply app_eq_mid in Hev'.
      destruct Hev' as [(mid & -> & _) | (pre'' & -> & H)].
      * now apply clean_app in Hc.
      * destruct pre'' as [|b pre'']; simpl in H.
        -- now rewrite app_nil_r.
        -- injection H as _ H. now destruct pre''.
    + rewrite Hev in Hc. now apply clean_app in Hc.
Qed.

(** ** Rules of the judgements *)

Section Rules.

Context {World : Type} (cloud : Cloud World).

Lemma emits_ret {A} P (a : A) : emits P (@ret World A a).
Proof. intros w. constructor. Qed.

Lemma emits_log (P : Event -> Prop) level msg args :
  P (EvLog level msg args) -> emits P (@log World level msg args).
Proof. intros H w. simpl. auto. Qed.

Lemma emits_send (P : Event -> Prop) c :
  (forall raised, P (EvCommand c raised)) -> emits P (send cloud c).
Proof.
  intros H w. unfold send. destruct (request cloud c w). simpl. auto.
Qed.

Lemma emits_describe (P : Event -> Prop) region :
  (forall raised, P (EvDescribe region raised)) ->
  emits P (describe_auto_scaling_groups cloud region).
Proof.
  intros H w. unfold describe_auto_scaling_groups.
  destruct (listing cloud region w) as [pages raised]. simpl.
  apply Forall_app. split.
  - apply Forall_forall. intros ev Hin. apply in_map_iff in Hin.
    destruct Hin as (page & <- & _). apply H.
  - destruct raised; auto.
Qed.

Lemma emits_client (P : Event -> Prop) service region :
  emits P (boto3_client cloud service region).
Proof. intros w. constructor. Qed.

Lemma emits_bind {A B} P (m : M World A) (k : A -> M World B) :
  emits P m -> (forall a, emits P (k a)) -> emits P (bind m k).
Proof.
  intros Hm Hk w. unfold bind. specialize (Hm w).
  destruct (outcome (m w)) as [a|e]; simpl.
  - apply Forall_app. split; [assumption | apply Hk].
  - assumption.
Qed.

Lemma emits_for_each {A} P (xs : list A) (body : A -> M World unit) :
  (forall x, In x xs -> emits P (body x)) -> emits P (for_each xs body).
Proof.
  induction xs as [|x xs IH]; intros H; simpl.
  - apply emits_ret.
  - apply emits_bind.
    + apply H. now left.
    + intros _. apply IH. intros y Hy. apply H. now right.
Qed.

Lemma emits_weaken {A} (P Q : Event -> Prop) (m : M World A) :
  (forall ev, P ev -> Q ev) -> emits P m -> emits Q m.
Proof. intros H Hm w. eapply Forall_impl; [exact H | apply Hm]. Qed.

Lemma follows_ret {A} (a : A) : follows [] (@ret World A a).
Proof. intros w. exists []. now split. Qed.

Lemma follows_log level msg args : follows [] (@log World level msg args).
Proof. intros w. exists []. now split. Qed.

Lemma follows_send c : follows [c] (send cloud c).
Proof.
  intros w. exists []. unfold send. destruct (request cloud c w). now split.
Qed.

Lemma follows_client service region :
  follows [] (boto3_client cloud service region).
Proof. intros w. exists []. now split. Qed.

Lemma follows_bind {A B} plan1 plan2 (m : M World A) (k : A -> M World B) :
  follows plan1 m -> (forall a, follows plan2 (k a)) ->
  follows (plan1 ++ plan2) (bind m k).
Proof.
  intros Hm Hk w. unfold bind.
  destruct (Hm w) as (rest1 & H1 & R1).
  destruct (outcome (m w)) as [a|e] eqn:Ho; simpl.
  - destruct (Hk a (world_after (m w))) as (rest2 & H2 & R2).
    exists rest2. rewrite commands_app. split.
    + rewrite (R1 a eq_refl), app_nil_r in H1.
      now rewrite H1, H2, app_assoc.
    + assumption.
  - exists (rest1 ++ plan2). split.
    + now rewrite H1, app_assoc.
    + discriminate.
Qed.

Lemma follows_for_each {A} (plan_of : A -> list Command) (xs : list A)
    (body : A -> M World unit) :
  (forall x, follows (plan_of x) (body x)) ->
  follows (flat_map plan_of xs) (for_each xs body).
Proof.
  intros H. induction xs as [|x xs IH]; simpl.
  - apply follows_ret.
  - apply follows_bind; [apply H | intros _; apply IH].
Qed.

Lemma follows_eq {A} plan plan' (m : M World A) :
  plan = plan' -> follows plan m -> follows plan' m.
Proof. now intros ->. Qed.

Lemma sound_ret {A} (a : A) : sound cloud (@ret World A a).
Proof. intros w. split; [constructor | reflexivity]. Qed.

Lemma sound_log level msg args : sound cloud (@log World level msg args).
Proof.
  intros w. split; [|reflexivity].
  unfold fail_stop; simpl. repeat constructor.
Qed.

Lemma sound_client service region :
  sound cloud (boto3_client cloud service region).
Proof.
  intros w. split; [|reflexivity].
  unfold fail_stop, boto3_client; simpl.
  destruct (client cloud service region) as [e|] eqn:Hc; [|constructor].
  right. split; [constructor | now exists service, region].
Qed.

Lemma sound_send c : sound cloud (send cloud c).
Proof.
  intros w. unfold send, fail_stop.
  destruct (request cloud c w) as [w' raised] eqn:Hr; simpl.
  split; [|now rewrite Hr].
  destruct raised as [e|].
  - left. exists [], (EvCommand c (Some e)). repeat split. constructor.
  - repeat constructor.
Qed.

Lemma sound_describe region :
  sound cloud (describe_auto_scaling_groups cloud region).
Proof.
  intros w. unfold describe_auto_scaling_groups, fail_stop.
  destruct (listing cloud region w) as [pages raised]; simpl.
  assert (Hc : clean (map (fun _ : ResourcePage => EvDescribe region None) pages)).
  { apply Forall_forall. intros ev Hin. apply in_map_iff in Hin.
    now destruct Hin as (page & <- & _). }
  split.
  - destruct raised as [e|].
    + left. eexists _, _. repeat split. assumption.
    + now rewrite app_nil_r.
  - rewrite replay_app. destruct raised; simpl.
    all: clear Hc; induction pages; simpl; auto.
Qed.

Lemma sound_bind {A B} (m : M World A) (k : A -> M World B) :
  sound cloud m -> (forall a, sound cloud (k a)) -> sound cloud (bind m k).
Proof.
  intros Hm Hk w. unfold bind, fail_stop.
  destruct (Hm w) as [F1 W1]. unfold fail_stop in F1.
  destruct (outcome (m w)) as [a|e]; simpl.
  - destruct (Hk a (world_after (m w))) as [F2 W2]. unfold fail_stop in F2.
    split.
    + destruct (outcome (k a (world_after (m w)))) as [b|e].
      * apply clean_app. now split.
      * destruct F2 as [(pre & ev & -> & Hr & Hc) | [Hc Hcl]].
        -- left. exists (events (m w) ++ pre), ev. rewrite app_assoc.
           repeat split; [assumption | apply clean_app; now split].
        -- right. split; [apply clean_app; now split | assumption].
    + now rewrite replay_app, <- W1.
  - now split.
Qed.

Lemma sound_for_each {A} (xs : list A) (body : A -> M World unit) :
  (forall x, sound cloud (body x)) -> sound cloud (for_each xs body).
Proof.
  intros H. induction xs as [|x xs IH]; simpl.
  - apply sound_ret.
  - apply sound_bind; [apply H | intros _; apply IH].
Qed.

End Rules.

(** ** Plans *)

(** An element of a concatenation of blocks lies in the block of one item. *)
Lemma flat_map_mid {A B} (f : A -> list B) (xs : list A) pre (y : B) post :
  flat_map f xs = pre ++ y :: post ->
  exists done x todo p q,
    xs = done ++ x :: todo
    /\ f x = p ++ y :: q
    /\ pre = flat_map f done ++ p
    /\ post = q ++ flat_map f todo.
Proof.
  revert pre; induction xs as [|x xs IH]; intros pre H; simpl in H.
  - now destruct pre.
  - apply app_eq_mid in H.
    destruct H as [(mid & H1 & ->) | (pre' & -> & H2)].
    + exists [], x, xs, pre, mid. now repeat split.
    + destruct (IH _ H2) as (done & x' & todo & p & q & -> & Hf & -> & ->).
      exists (x :: done), x', todo, p, q. simpl.
      repeat split; [assumption | now rewrite app_assoc].
Qed.

Lemma stop_plan_of_stop region g p rg ids q :
  stop_plan_of region g = p ++ stop_instances rg ids :: q ->
  exists before i after,
    ec2_instance_ids g = before ++ i :: after
    /\ rg = region /\ ids = [i]
    /\ p = suspend_processes region (name g)
           :: map (fun j => stop_instances region [j]) before.
Proof.
  unfold stop_plan_of. intros H.
  destruct p as [|c p]; simpl in H; [discriminate|].
  injection H as <- H.
  apply map_eq_app in H. destruct H as (before & l2 & Hids & <- & H).
  apply map_eq_cons in H. destruct H as (i & after & -> & Hi & _).
  injection Hi as <- <-.
  exists before, i, after. now repeat split.
Qed.

Lemma start_calls_only_start region ids c :
  In c (start_calls region ids) -> exists i, c = start_instances region [i].
Proof.
  unfold start_calls. intros H. apply in_map_iff in H.
  destruct H as (i & <- & _). now exists i.
Qed.

Lemma start_plan_of_wait region g p rg ids d m q :
  start_plan_of region g = p ++ instance_running_wait rg ids d m :: q ->
  rg = region /\ ids = ec2_instance_ids g /\ d = 15 /\ m = 30
  /\ p = start_calls region (ec2_instance_ids g).
Proof.
  unfold start_plan_of. intros H. apply app_eq_mid in H.
  destruct H as [(mid & H & _) | (p' & -> & H)].
  - assert (Hin : In (instance_running_wait rg ids d m)
                     (start_calls region (ec2_instance_ids g)))
      by (rewrite H; apply in_elt).
    apply start_calls_only_start in Hin. now destruct Hin.
  - destruct p' as [|c p']; simpl in H.
    + injection H as <- <- <- <- _. now rewrite app_nil_r.
    + injection H as _ H. destruct p' as [|c' p']; simpl in H.
      * discriminate.
      * injection H as _ H. now destruct p'.
Qed.

Lemma start_plan_of_resume region g p rg n q :
  start_plan_of region g = p ++ resume_processes rg n :: q ->
  rg = region /\ n = name g /\ q = []
  /\ p = start_calls region (ec2_instance_ids g)
         ++ [instance_running_wait region (ec2_instance_ids g) 15 30].
Proof.
  unfold start_plan_of. intros H.
  change [instance_running_wait region (ec2_instance_ids g) 15 30;
          resume_processes region (name g)]
    with ([instance_running_wait region (ec2_instance_ids g) 15 30]
          ++ [resume_processes region (name g)]) in H.
  rewrite app_assoc in H. apply snoc_eq_mid in H.
  - destruct H as (-> & H & ->). injection H as -> ->. now repeat split.
  - intros Hin. apply in_app_or in Hin. destruct Hin as [Hin | [Hin | []]].
    + apply start_calls_only_start in Hin. now destruct Hin.
    + discriminate.
Qed.

(** A call of a trace stands for one of its events. *)
Lemma api_calls_mid (evs : list Event) pre c o post :
  api_calls evs = pre ++ (c, o) :: post ->
  exists epre epost,
    evs = epre ++ EvCommand c o :: epost
    /\ api_calls epre = pre /\ api_calls epost = post.
Proof.
  revert pre; induction evs as [|ev evs IH]; intros pre H.
  - now destruct pre.
  - destruct ev as [r o'|c' o'|l s a]; simpl in H.
    + destruct (IH _ H) as (epre & epost & -> & <- & <-).
      now exists (EvDescribe r o' :: epre), epost.
    + destruct pre as [|x pre]; simpl in H.
      * injection H as -> -> <-. now exists [], evs.
      * injection H as <- H.
        destruct (IH _ H) as (epre & epost & -> & <- & <-).
        now exists (EvCommand c' o' :: epre), epost.
    + destruct (IH _ H) as (epre & epost & -> & <- & <-).
      now exists (EvLog l s a :: epre), epost.
Qed.

Lemma commands_mid (evs : list Event) pre c post :
  commands evs = pre ++ c :: post ->
  exists epre o epost,
    evs = epre ++ EvCommand c o :: epost
    /\ commands epre = pre /\ commands epost = post.
Proof.
  unfold commands. intros H.
  apply map_eq_app in H. destruct H as (l1 & l2 & H & <- & H2).
  apply map_eq_cons in H2. destruct H2 as ([c' o] & l3 & -> & Hc & <-).
  simpl in Hc; subst c'.
  apply api_calls_mid in H. destruct H as (epre & epost & -> & <- & <-).
  now exists epre, o, epost.
Qed.

(** The calls of a clean trace all returned. *)
Lemma api_calls_clean (evs : list Event) :
  clean evs -> api_calls evs = map (fun c => (c, None)) (commands evs).
Proof.
  unfold commands. induction evs as [|[r o|c o|l s a] evs IH]; intros H;
    inversion H; subst; simpl in *; auto.
  now rewrite <- IH; subst.
Qed.

(** ** The methods *)

Ltac run_rule :=
  first [ apply sound_bind | apply sound_for_each | apply sound_log
        | apply sound_send | apply sound_ret | apply sound_describe
        | apply sound_client
        | apply emits_bind | apply emits_for_each | apply emits_log
        | apply emits_send | apply emits_ret | apply emits_describe
        | apply emits_client ].

Ltac run_rules := repeat (intros; run_rule); intros; try reflexivity.

Section Methods.

Context {World : Type} (cloud : Cloud World).

Lemma sound_get (region tag_key tag_value : string) :
  sound cloud (_get_ec2_auto_scaling_groups_by_tag cloud region tag_key tag_value).
Proof. unfold _get_ec2_auto_scaling_groups_by_tag. run_rules. Qed.

Lemma sound_stop (region : string) (groups : list Ec2AutoScalingGroup) :
  sound cloud (_stop_ec2_auto_scaling_groups cloud region groups).
Proof. unfold _stop_ec2_auto_scaling_groups. run_rules. Qed.

Lemma sound_start (region : string) (groups : list Ec2AutoScalingGroup) :
  sound cloud (_start_ec2_auto_scaling_groups cloud region groups).
Proof. unfold _start_ec2_auto_scaling_groups. run_rules. Qed.

Lemma sound_execute_region (env : Environ) (region : string) :
  sound cloud (execute_region cloud env region).
Proof.
  unfold execute_region.
  apply sound_bind; [apply sound_log | intros _].
  apply sound_bind; [apply sound_get | intros groups].
  apply sound_bind; [apply sound_log | intros _].
  destruct (0 <? List.length groups)%nat; [|apply sound_ret].
  destruct (str_in (ACTION env) ["enable"; "start"]); [apply sound_start|].
  destruct (str_in (ACTION env) ["disable"; "stop"]);
    [apply sound_stop | apply sound_ret].
Qed.

Lemma sound_execute {Response : Type}
    (response_ok : Response) (env : Environ)
    (event : LambdaEvent) (context : LambdaContext) :
  sound cloud (_execute cloud response_ok env event context).
Proof.
  unfold _execute.
  apply sound_bind; [apply sound_log | intros _].
  apply sound_bind; [apply sound_for_each, sound_execute_region | intros _].
  run_rules.
Qed.

Lemma follows_stop (region : string) (groups : list Ec2AutoScalingGroup) :
  follows (stop_plan region groups)
          (_stop_ec2_auto_scaling_groups cloud region groups).
Proof.
  unfold _stop_ec2_auto_scaling_groups, stop_plan.
  apply (follows_bind [] (flat_map (stop_plan_of region) groups));
    [apply follows_client | intros _].
  apply (follows_bind [] (flat_map (stop_plan_of region) groups));
    [apply follows_client | intros _].
  apply (follows_bind [] (flat_map (stop_plan_of region) groups));
    [apply follows_log | intros _].
  apply follows_for_each. intros g.
  eapply follows_eq; cycle 1.
  - eapply follows_bind; [apply follows_log | intros _].
    eapply follows_bind; [apply follows_send | intros _].
    eapply follows_bind; [| intros _; apply follows_log].
    apply (follows_for_each (fun i => [] ++ [stop_instances region [i]])).
    intros i.
    eapply follows_bind; [apply follows_log | intros _; apply follows_send].
  - unfold stop_plan_of. simpl. now rewrite app_nil_r, flat_map_singleton.
Qed.

Lemma follows_start (region : string) (groups : list Ec2AutoScalingGroup) :
  follows (start_plan region groups)
          (_start_ec2_auto_scaling_groups cloud region groups).
Proof.
  unfold _start_ec2_auto_scaling_groups, start_plan.
  apply (follows_bind [] (flat_map (start_plan_of region) groups));
    [apply follows_client | intros _].
  apply (follows_bind [] (flat_map (start_plan_of region) groups));
    [apply follows_client | intros _].
  apply (follows_bind [] (flat_map (start_plan_of region) groups));
    [apply follows_log | intros _].
  apply follows_for_each. intros g.
  eapply follows_eq; cycle 1.
  - eapply follows_bind; [apply follows_log | intros _].
    eapply follows_bind.
    + apply (follows_for_each (fun i => [] ++ [start_instances region [i]])).
      intros i.
      eapply follows_bind; [apply follows_log | intros _; apply follows_send].
    + intros _.
      eapply follows_bind; [apply follows_send | intros _].
      eapply follows_bind; [apply follows_send | intros _].
      apply follows_log.
  - unfold start_plan_of, start_calls. simpl. now rewrite flat_map_singleton.
Qed.

Lemma emits_stop (region : string) (groups : list Ec2AutoScalingGroup) :
  emits (fun ev => stop_workflow_event ev = true
                   /\ action_event region ev = true)
        (_stop_ec2_auto_scaling_groups cloud region groups).
Proof.
  unfold _stop_ec2_auto_scaling_groups. run_rules; simpl;
    auto using String.eqb_refl.
Qed.

Lemma emits_start (region : string) (groups : list Ec2AutoScalingGroup) :
  emits (fun ev => wait_config_ok ev = true /\ action_event region ev = true)
        (_start_ec2_auto_scaling_groups cloud region groups).
Proof.
  unfold _start_ec2_auto_scaling_groups. run_rules; simpl;
    auto using String.eqb_refl.
Qed.

Lemma emits_get (region tag_key tag_value : string) :
  emits (fun ev => is_describe_of region ev = true)
        (_get_ec2_auto_scaling_groups_by_tag cloud region tag_key tag_value).
Proof.
  unfold _get_ec2_auto_scaling_groups_by_tag. run_rules; simpl;
    auto using String.eqb_refl.
Qed.

(** Events that are no command leave no command in the trace, and the world
    where it was. *)
Lemma no_command_commands (evs : list Event) :
  Forall (fun ev => is_command ev = false) evs -> commands evs = [].
Proof.
  unfold commands.
  induction evs as [|[r o|c o|l s a] evs IH]; intros H; inversion H; subst;
    simpl in *; auto; discriminate.
Qed.

Lemma no_command_replay (evs : list Event) (w : World) :
  Forall (fun ev => is_command ev = false) evs -> replay cloud evs w = w.
Proof.
  induction evs as [|[r o|c o|l s a] evs IH]; intros H; inversion H; subst;
    simpl in *; auto; discriminate.
Qed.

Lemma describe_is_no_command region ev :
  is_describe_of region ev = true -> is_command ev = false.
Proof. now destruct ev. Qed.

End Methods.

(** ** Discovery *)

Lemma NoDup_map_injective {A B} (f : A -> B) (l : list A) (x y : A) :
  NoDup (map f l) -> In x l -> In y l -> f x = f y -> x = y.
Proof.
  induction l as [|a l IH]; simpl; intros Hnd Hx Hy Hf; [contradiction|].
  inversion Hnd as [|? ? Hna Hnd']; subst.
  destruct Hx as [-> | Hx], Hy as [-> | Hy]; auto.
  - exfalso. apply Hna. rewrite Hf. now apply in_map.
  - exfalso. apply Hna. rewrite <- Hf. now apply in_map.
Qed.

Lemma get_outcome {World} (cloud : Cloud World)
    (region tag_key tag_value : string) (w : World) :
  outcome (_get_ec2_auto_scaling_groups_by_tag cloud region tag_key tag_value w)
  = match snd (paginate cloud region w) with
    | Some e => Raised e
    | None => Returned (scan_pages tag_key tag_value (fst (paginate cloud region w)))
    end.
Proof.
  unfold _get_ec2_auto_scaling_groups_by_tag, bind,
    describe_auto_scaling_groups, boto3_client, paginate. simpl.
  destruct (client cloud "autoscaling" region) as [e|]; simpl; [reflexivity|].
  destruct (listing cloud region w) as [pages [e|]]; reflexivity.
Qed.

(** C1. Discovery returns unless a describe request raises, and then a group
    of the listing is recorded exactly when one of its tags has the
    configured key and value and it has at least one instance: every entry
    of the result is the record of such a group, every such group has its
    entry, and, group names being distinct in a listing, the name of a listed
    group is among the names of the result if and only if the group has the
    tag pair and an instance. *)
Theorem discovery_keeps_tagged_nonempty_groups {World} (cloud : Cloud World)
    (region tag_key tag_value : string) (w : World) :
  let pages := fst (paginate cloud region w) in
  let matched := scan_pages tag_key tag_value pages in
  outcome (_get_ec2_auto_scaling_groups_by_tag cloud region tag_key tag_value w)
  = match snd (paginate cloud region w) with
    | Some e => Raised e
    | None => Returned matched
    end
  /\ (forall m,
        In m matched
        <-> exists resource,
              In resource (listed pages)
              /\ m = match_of resource
              /\ has_tag_pair tag_key tag_value resource
              /\ Instances resource <> [])
  /\ (NoDup (map AutoScalingGroupName (listed pages)) ->
      forall resource,
        In resource (listed pages) ->
        (In (AutoScalingGroupName resource) (map name matched)
         <-> has_tag_pair tag_key tag_value resource
             /\ Instances resource <> [])).
Proof.
  intros pages matched. split; [apply get_outcome|].
  split; [intros m; apply scan_pages_In|].
  intros Hnd resource Hin. unfold matched. split.
  - intros H. apply in_map_iff in H. destruct H as (m & Hname & Hm).
    apply scan_pages_In in Hm.
    destruct Hm as (resource' & Hin' & -> & Htag & Hinst).
    assert (resource' = resource) as ->
      by (eapply NoDup_map_injective; eauto).
    now split.
  - intros [Htag Hinst]. apply in_map_iff.
    exists (match_of resource). split; [reflexivity|].
    apply scan_pages_In. now exists resource.
Qed.

Lemma discovery_keeps_tagged_nonempty_groups_witness :
  let matched := scan_pages "env" "prod" Sim.us_east_1 in
  In "G1" (map name matched)
  /\ ~ In "G2" (map name matched)
  /\ ~ In "G3" (map name matched).
Proof.
  pose proof (discovery_keeps_tagged_nonempty_groups
                Sim.cloud "us-east-1" "env" "prod" Sim.world0) as H.
  destruct H as (_ & _ & H). simpl in H.
  assert (Hnd : NoDup ["G1"; "G2"; "G3"]).
  { repeat constructor; simpl; intros F;
      repeat (destruct F as [F|F]; try discriminate F); exact F. }
  specialize (H Hnd). simpl. repeat split.
  - apply (H Sim.G1); [simpl; auto|]. split; [|discriminate].
    exists Sim.env_prod. simpl. auto.
  - intros F. apply (H Sim.G2) in F; [|simpl; auto].
    destruct F as [(tag & [] & _) _].
  - intros F. apply (H Sim.G3) in F; [|simpl; auto].
    destruct F as [_ F]. now apply F.
Defined.

Lemma scan_names_listed (tag_key tag_value : string) (l : list AutoScalingGroup)
    (n : string) :
  In n (map name (flat_map (fun resource =>
                    repeat (match_of resource)
                           (multiplicity tag_key tag_value resource)) l)) ->
  In n (map AutoScalingGroupName l).
Proof.
  intros H. apply in_map_iff in H. destruct H as (m & <- & H).
  apply in_flat_map in H. destruct H as (resource & Hin & H).
  apply repeat_spec in H. subst m. simpl. now apply in_map.
Qed.

Lemma multiplicity_le (tag_key tag_value : string) (resource : AutoScalingGroup) :
  multiplicity tag_key tag_value resource
  <= List.length (filter (tag_matches tag_key tag_value) (Tags resource)).
Proof. unfold multiplicity. destruct (Instances resource); lia. Qed.

Lemma scan_pages_NoDup (tag_key tag_value : string)
    (resource_pages : list ResourcePage) :
  NoDup (map AutoScalingGroupName (listed resource_pages)) ->
  (forall resource, In resource (listed resource_pages) ->
     List.length (filter (tag_matches tag_key tag_value) (Tags resource)) <= 1) ->
  NoDup (map name (scan_pages tag_key tag_value resource_pages)).
Proof.
  rewrite scan_pages_flat_map. generalize (listed resource_pages) as l.
  induction l as [|resource l IH]; simpl; intros Hnd Hone; [constructor|].
  inversion Hnd as [|? ? Hout Hnd']; subst.
  rewrite map_app.
  pose proof (multiplicity_le tag_key tag_value resource) as Hle.
  specialize (Hone resource (or_introl eq_refl)) as H1.
  destruct (multiplicity tag_key tag_value resource) as [|[|k]]; simpl.
  - apply IH; auto.
  - constructor; [|apply IH; auto].
    intros Hin. apply Hout. eapply scan_names_listed, Hin.
  - lia.
Qed.

(** C2, against the claim.  A group listed once with the configured tag pair
    twice is recorded twice. *)
Lemma discovery_repeats_twice_tagged_group :
  NoDup (listed (fst (paginate Sim.cloud "us-east-1" Sim.world_twice)))
  /\ outcome (_get_ec2_auto_scaling_groups_by_tag
                Sim.cloud "us-east-1" "env" "prod" Sim.world_twice)
     = Returned [Sim.m_G4; Sim.m_G4]
  /\ ~ NoDup [Sim.m_G4; Sim.m_G4].
Proof.
  split; [|split].
  - simpl. repeat constructor. intros [].
  - reflexivity.
  - intros H. inversion H as [|? ? Hout _]; subst. apply Hout. now left.
Qed.

(** C2, as amended.  When the groups of the listing have distinct names and
    none carries the configured tag pair more than once, discovery returns
    a list in which every group is recorded at most once: the names of its
    entries are distinct. *)
Theorem discovery_lists_group_once {World} (cloud : Cloud World)
    (region tag_key tag_value : string) (w : World)
    (resource_pages : list ResourcePage) :
  paginate cloud region w = (resource_pages, None) ->
  NoDup (map AutoScalingGroupName (listed resource_pages)) ->
  (forall resource, In resource (listed resource_pages) ->
     List.length (filter (tag_matches tag_key tag_value) (Tags resource)) <= 1) ->
  exists matched,
    outcome (_get_ec2_auto_scaling_groups_by_tag cloud region tag_key tag_value w)
    = Returned matched
    /\ NoDup (map name matched)
    /\ NoDup matched.
Proof.
  intros Hp Hnd Hone.
  exists (scan_pages tag_key tag_value resource_pages).
  rewrite get_outcome, Hp. simpl.
  pose proof (scan_pages_NoDup tag_key tag_value resource_pages Hnd Hone) as H.
  repeat split; [assumption|].
  now apply NoDup_map_inv in H.
Qed.

Lemma discovery_lists_group_once_witness :
  exists matched,
    outcome (_get_ec2_auto_scaling_groups_by_tag
               Sim.cloud "us-east-1" "env" "prod" Sim.world0)
    = Returned matched
    /\ NoDup (map name matched)
    /\ NoDup matched.
Proof.
  apply (discovery_lists_group_once Sim.cloud "us-east-1" "env" "prod"
           Sim.world0 Sim.us_east_1).
  - reflexivity.
  - simpl. repeat constructor; simpl; intros F;
      repeat (destruct F as [F|F]; try discriminate F); exact F.
  - simpl. intros resource [<- | [<- | [<- | []]]]; simpl; lia.
Defined.

(** C10. Discovery sends describe requests for its region and nothing else:
    its trace holds no command (no suspend, resume, start, stop or wait) and
    no log record, and the world it leaves is the world it found. *)
Theorem discovery_is_read_only {World} (cloud : Cloud World)
    (region tag_key tag_value : string) (w : World) :
  let run := _get_ec2_auto_scaling_groups_by_tag cloud region tag_key tag_value w in
  Forall (fun ev => is_describe_of region ev = true) (events run)
  /\ commands (events run) = []
  /\ world_after run = w.
Proof.
  intros run.
  pose proof (emits_get cloud region tag_key tag_value w) as He.
  fold run in He.
  assert (Hn : Forall (fun ev => is_command ev = false) (events run))
    by (eapply Forall_impl; [apply describe_is_no_command | exact He]).
  split; [assumption|]. split.
  - now apply no_command_commands.
  - destruct (sound_get cloud region tag_key tag_value w) as [_ Hw].
    fold run in Hw. rewrite Hw. now apply no_command_replay.
Qed.

(** ** The stop workflow *)

(** C3. The commands of the stop workflow are, group after group in list
    order, the suspend of the group followed by one stop per instance, each
    for that instance alone; when a request raises they are that sequence
    up to the request.  So whenever an instance is sent a stop, what was sent
    before it is: the whole plan of the groups before its group, the suspend
    of its group, and the stops of the instances before it in the group. *)
Theorem stop_suspends_group_before_its_instances {World} (cloud : Cloud World)
    (region : string) (groups : list Ec2AutoScalingGroup) (w : World) :
  let run := _stop_ec2_auto_scaling_groups cloud region groups w in
  (exists rest,
     stop_plan region groups = commands (events run) ++ rest
     /\ (outcome run = Returned tt -> rest = []))
  /\ (forall pre rg ids post,
        commands (events run) = pre ++ stop_instances rg ids :: post ->
        exists done g todo before i after,
          groups = done ++ g :: todo
          /\ ec2_instance_ids g = before ++ i :: after
          /\ rg = region /\ ids = [i]
          /\ pre = stop_plan region done
                   ++ suspend_processes region (name g)
                      :: map (fun j => stop_instances region [j]) before).
Proof.
  intros run.
  destruct (follows_stop cloud region groups w) as (rest & Hplan & Hrest).
  fold run in Hplan, Hrest.
  split; [exists rest; split; [assumption | apply Hrest]|].
  intros pre rg ids post Hc.
  rewrite Hc, <- app_assoc in Hplan. simpl in Hplan.
  apply flat_map_mid in Hplan.
  destruct Hplan as (done & g & todo & p & q & -> & Hg & -> & _).
  apply stop_plan_of_stop in Hg.
  destruct Hg as (before & i & after & Hids & -> & -> & ->).
  exists done, g, todo, before, i, after. now repeat split.
Qed.

Lemma stop_suspends_group_before_its_instances_witness :
  let run := _stop_ec2_auto_scaling_groups Sim.cloud "us-east-1" [Sim.m_G1]
               Sim.world0 in
  commands (events run)
  = [suspend_processes "us-east-1" "G1";
     stop_instances "us-east-1" ["i-1"];
     stop_instances "us-east-1" ["i-2"]]
  /\ exists done g todo before i after,
       [Sim.m_G1] = done ++ g :: todo
       /\ ec2_instance_ids g = before ++ i :: after
       /\ "us-east-1" = "us-east-1" /\ ["i-2"] = [i]
       /\ [suspend_processes "us-east-1" "G1";
           stop_instances "us-east-1" ["i-1"]]
          = stop_plan "us-east-1" done
            ++ suspend_processes "us-east-1" (name g)
               :: map (fun j => stop_instances "us-east-1" [j]) before.
Proof.
  split; [reflexivity|].
  apply (proj2 (stop_suspends_group_before_its_instances
                  Sim.cloud "us-east-1" [Sim.m_G1] Sim.world0)
           _ "us-east-1" ["i-2"] []).
  reflexivity.
Defined.

(** C8. A run of the stop workflow sends suspends and stops of one instance
    only, so nothing it did is taken back, and the world it leaves is the one
    these commands made.  When a command raises, it is the last event of the
    run: no log record and no request for the instances and groups that
    remain follows it; its exception is the outcome of the workflow; the
    commands before it all returned; and the world is the one that command
    left. *)
Theorem stop_failure_propagates {World} (cloud : Cloud World)
    (region : string) (groups : list Ec2AutoScalingGroup) (w : World) :
  let run := _stop_ec2_auto_scaling_groups cloud region groups w in
  Forall (fun ev => stop_workflow_event ev = true) (events run)
  /\ world_after run = replay cloud (events run) w
  /\ (forall pre c e post,
        events run = pre ++ EvCommand c (Some e) :: post ->
        post = []
        /\ outcome run = Raised e
        /\ clean pre
        /\ world_after run = fst (request cloud c (replay cloud pre w))).
Proof.
  intros run.
  destruct (sound_stop cloud region groups w) as [Hfs Hw].
  fold run in Hfs, Hw.
  split; [|split; [assumption|]].
  - eapply Forall_impl; [|apply (emits_stop cloud region groups w)].
    now intros ev [H _].
  - intros pre c e post Hev.
    destruct (fail_stop_raised run pre _ e post Hfs Hev eq_refl)
      as (-> & Ho & Hc).
    repeat split; try assumption.
    now rewrite Hw, Hev, replay_app.
Qed.

Lemma stop_failure_propagates_witness :
  let run := _stop_ec2_auto_scaling_groups Sim.cloud "us-east-1" [Sim.m_G1]
               Sim.world_protected in
  commands (events run)
  = [suspend_processes "us-east-1" "G1";
     stop_instances "us-east-1" ["i-1"];
     stop_instances "us-east-1" ["i-2"]]
  /\ outcome run = Raised (ClientError "UnauthorizedOperation")
  /\ Sim.suspended (world_after run) = ["G1"]
  /\ Sim.stopped (world_after run) = ["i-1"].
Proof.
  split; [reflexivity|].
  destruct (proj2 (proj2 (stop_failure_propagates
                            Sim.cloud "us-east-1" [Sim.m_G1]
                            Sim.world_protected))
              [EvLog INFO "> Stopping EC2 AutoScaling groups." [];
               EvLog DEBUG ">> Stopping AutoScaling Group %s." ["G1"];
               EvCommand (suspend_processes "us-east-1" "G1") None;
               EvLog DEBUG ">>> Stopping EC2: %s." ["i-1"];
               EvCommand (stop_instances "us-east-1" ["i-1"]) None;
               EvLog DEBUG ">>> Stopping EC2: %s." ["i-2"]]
              (stop_instances "us-east-1" ["i-2"])
              (ClientError "UnauthorizedOperation") [] eq_refl)
    as (_ & Ho & _ & Hw).
  split; [exact Ho|]. rewrite Hw. split; reflexivity.
Defined.

(** ** The start workflow *)

(** C4. The commands of the start workflow are, group after group in list
    order, one start per instance, the wait for the instances of the group
    with the waiter configuration of the code, and the resume of the group;
    when a request raises they are that sequence up to the request.  So when
    the wait for a group is sent, every instance of the group was sent its
    start before; and when the resume of a group is sent, the starts of its
    instances and then its wait were sent before and, with every call before
    them, returned without raising. *)
Theorem start_waits_before_resuming {World} (cloud : Cloud World)
    (region : string) (groups : list Ec2AutoScalingGroup) (w : World) :
  let run := _start_ec2_auto_scaling_groups cloud region groups w in
  (exists rest,
     start_plan region groups = commands (events run) ++ rest
     /\ (outcome run = Returned tt -> rest = []))
  /\ (forall pre rg ids delay max_attempts post,
        commands (events run)
        = pre ++ instance_running_wait rg ids delay max_attempts :: post ->
        exists done g todo,
          groups = done ++ g :: todo
          /\ rg = region /\ ids = ec2_instance_ids g
          /\ pre = start_plan region done
                   ++ start_calls region (ec2_instance_ids g))
  /\ (forall pre rg n raised post,
        api_calls (events run) = pre ++ (resume_processes rg n, raised) :: post ->
        exists done g todo,
          groups = done ++ g :: todo
          /\ rg = region /\ n = name g
          /\ pre = map (fun c => (c, None))
                     (start_plan region done
                      ++ start_calls region (ec2_instance_ids g)
                      ++ [instance_running_wait region (ec2_instance_ids g) 15 30])).
Proof.
  intros run.
  destruct (follows_start cloud region groups w) as (rest & Hplan & Hrest).
  fold run in Hplan, Hrest.
  split; [exists rest; split; [assumption | apply Hrest]|].
  split.
  - intros pre rg ids delay max_attempts post Hc.
    rewrite Hc, <- app_assoc in Hplan. simpl in Hplan.
    apply flat_map_mid in Hplan.
    destruct Hplan as (done & g & todo & p & q & -> & Hg & -> & _).
    apply start_plan_of_wait in Hg. destruct Hg as (-> & -> & _ & _ & ->).
    now exists done, g, todo.
  - intros pre rg n raised post Hc.
    apply api_calls_mid in Hc.
    destruct Hc as (epre & epost & Hev & <- & <-).
    destruct (sound_start cloud region groups w) as [Hfs _]. fold run in Hfs.
    pose proof (fail_stop_before run _ _ _ Hfs Hev) as Hclean.
    rewrite (api_calls_clean _ Hclean).
    rewrite Hev, commands_app, <- app_assoc in Hplan. simpl in Hplan.
    apply flat_map_mid in Hplan.
    destruct Hplan as (done & g & todo & p & q & -> & Hg & -> & _).
    apply start_plan_of_resume in Hg. destruct Hg as (-> & -> & _ & ->).
    now exists done, g, todo.
Qed.

Lemma start_waits_before_resuming_witness :
  let run := _start_ec2_auto_scaling_groups Sim.cloud "us-east-1" [Sim.m_G1]
               Sim.world0 in
  api_calls (events run)
  = [(start_instances "us-east-1" ["i-1"], None);
     (start_instances "us-east-1" ["i-2"], None);
     (instance_running_wait "us-east-1" ["i-1"; "i-2"] 15 30, None);
     (resume_processes "us-east-1" "G1", None)]
  /\ exists done g todo,
       [Sim.m_G1] = done ++ g :: todo
       /\ "us-east-1" = "us-east-1" /\ "G1" = name g
       /\ [(start_instances "us-east-1" ["i-1"], None);
           (start_instances "us-east-1" ["i-2"], None);
           (instance_running_wait "us-east-1" ["i-1"; "i-2"] 15 30, None)]
          = map (fun c => (c, @None BotoError))
              (start_plan "us-east-1" done
               ++ start_calls "us-east-1" (ec2_instance_ids g)
               ++ [instance_running_wait "us-east-1" (ec2_instance_ids g) 15 30]).
Proof.
  split; [reflexivity|].
  apply (proj2 (proj2 (start_waits_before_resuming
                         Sim.cloud "us-east-1" [Sim.m_G1] Sim.world0))
           _ "us-east-1" "G1" None []).
  reflexivity.
Defined.

(** ** The top level *)


Lemma outcome_bind_log {World A} level msg args (k : unit -> M World A) (w : World) :
  outcome (bind (log level msg args) k w) = outcome (k tt w).
Proof. reflexivity. Qed.

Lemma world_bind_log {World A} level msg args (k : unit -> M World A) (w : World) :
  world_after (bind (log level msg args) k w) = world_after (k tt w).
Proof. reflexivity. Qed.

(** The two ways a sequence runs. *)
Lemma bind_cases {World A B} (m : M World A) (k : A -> M World B) (w : World) :
  (exists a,
     outcome (m w) = Returned a
     /\ events (bind m k w) = events (m w) ++ events (k a (world_after (m w)))
     /\ outcome (bind m k w) = outcome (k a (world_after (m w)))
     /\ world_after (bind m k w) = world_after (k a (world_after (m w))))
  \/ (exists e,
        outcome (m w) = Raised e
        /\ events (bind m k w) = events (m w)
        /\ outcome (bind m k w) = Raised e
        /\ world_after (bind m k w) = world_after (m w)).
Proof.
  unfold bind. destruct (outcome (m w)) as [a|e]; simpl.
  - left. now exists a.
  - right. now exists e.
Qed.

Section TopLevel.

Context {World : Type} (cloud : Cloud World).
Context {Response : Type} (response_ok : Response).

(** A run of discovery whose listing is complete. *)
Lemma get_run (region tag_key tag_value : string) (w : World)
    (pages : list ResourcePage) :
  paginate cloud region w = (pages, None) ->
  _get_ec2_auto_scaling_groups_by_tag cloud region tag_key tag_value w
  = {| outcome := Returned (scan_pages tag_key tag_value pages);
       world_after := w;
       events := map (fun _ => EvDescribe region None) pages |}.
Proof.
  unfold paginate. intros Hp.
  unfold _get_ec2_auto_scaling_groups_by_tag, describe_auto_scaling_groups,
    boto3_client, bind. simpl.
  destruct (client cloud "autoscaling" region); [discriminate|]. simpl.
  rewrite Hp. simpl. now rewrite !app_nil_r.
Qed.

(** One region whose listing is complete: discovery, then the branch on what
    it found, in the world it started in. *)
Lemma execute_region_run (env : Environ) (region : string) (w : World)
    (pages : list ResourcePage) :
  paginate cloud region w = (pages, None) ->
  let groups := scan_pages (RESOURCE_TAG_KEY env) (RESOURCE_TAG_VALUE env) pages in
  let action := branch cloud env region groups w in
  execute_region cloud env region w
  = {| outcome := outcome action;
       world_after := world_after action;
       events :=
         EvLog INFO "> Searching Auto Scaling Groups in region %s having tag %s=%s."
           [region; RESOURCE_TAG_KEY env; RESOURCE_TAG_VALUE env]
         :: map (fun _ => EvDescribe region None) pages
            ++ EvLog INFO
                 "> Found %s EC2 Auto Scaling Groups in region %s having tag %s=%s."
                 [str (List.length groups); region;
                  RESOURCE_TAG_KEY env; RESOURCE_TAG_VALUE env]
               :: events action |}.
Proof.
  intros Hp groups action.
  unfold action, groups, branch, execute_region, bind, log. simpl.
  rewrite (get_run _ _ _ _ _ Hp). simpl.
  reflexivity.
Qed.






(** [_execute] around the loop over the regions. *)
Lemma execute_unfold (env : Environ)
    (event : LambdaEvent) (context : LambdaContext) (w : World) :
  let loop := for_each (AWS_REGIONS env) (execute_region cloud env) w in
  _execute cloud response_ok env event context w
  = match outcome loop with
    | Returned _ =>
        {| outcome := Returned response_ok;
           world_after := world_after loop;
           events := EvLog INFO "Starting the operation." []
                     :: events loop
                        ++ [EvLog INFO "Operation completed successfully." []] |}
    | Raised e =>
        {| outcome := Raised e;
           world_after := world_after loop;
           events := EvLog INFO "Starting the operation." [] :: events loop |}
    end.
Proof.
  intros loop. unfold _execute, bind. simpl. fold loop.
  destruct (outcome loop); reflexivity.
Qed.


Lemma unknown_action_branches (action : string) :
  str_in action ["enable"; "start"; "disable"; "stop"] = false ->
  str_in action ["enable"; "start"] = false
  /\ str_in action ["disable"; "stop"] = false.
Proof.
  unfold str_in. simpl. rewrite !orb_false_r.
  destruct (action =? "enable")%string, (action =? "start")%string,
    (action =? "disable")%string, (action =? "stop")%string;
    simpl; intros H; try discriminate H; now split.
Qed.

Lemma execute_region_unknown_action (env : Environ) (region : string) (w : World) :
  str_in (ACTION env) ["enable"; "start"; "disable"; "stop"] = false ->
  let run := execute_region cloud env region w in
  Forall (fun ev => is_command ev = false) (events run)
  /\ world_after run = w
  /\ outcome run = match snd (paginate cloud region w) with
                   | Some e => Raised e
                   | None => Returned tt
                   end.
Proof.
  intros Hact run. apply unknown_action_branches in Hact.
  destruct Hact as [Hstart Hstop].
  assert (Hev : Forall (fun ev => is_command ev = false) (events run)).
  { unfold run, execute_region. rewrite Hstart, Hstop.
    apply emits_bind; [now apply emits_log | intros _].
    apply emits_bind.
    - eapply emits_weaken; [|apply emits_get]. apply describe_is_no_command.
    - intros groups. apply emits_bind; [now apply emits_log | intros _].
      destruct (0 <? List.length groups)%nat; apply emits_ret. }
  split; [assumption|]. split.
  - destruct (sound_execute_region cloud env region w) as [_ Hw].
    fold run in Hw. rewrite Hw. now apply no_command_replay.
  - pose proof (get_outcome cloud region (RESOURCE_TAG_KEY env)
                  (RESOURCE_TAG_VALUE env) w) as Hget.
    unfold run, execute_region. rewrite Hstart, Hstop, outcome_bind_log.
    match goal with
    | |- context [outcome (bind ?m ?k w)] =>
        destruct (bind_cases m k w)
          as [(groups & Ho & _ & -> & _) | (e & Ho & _ & -> & _)]
    end; rewrite Ho in Hget.
    + rewrite outcome_bind_log.
      destruct (snd (paginate cloud region w)); [discriminate|].
      now destruct (0 <? List.length groups)%nat.
    + destruct (snd (paginate cloud region w)); congruence.
Qed.

Lemma for_each_unknown_action (env : Environ) (regions : list string) (w : World) :
  str_in (ACTION env) ["enable"; "start"; "disable"; "stop"] = false ->
  let run := for_each regions (execute_region cloud env) w in
  Forall (fun ev => is_command ev = false) (events run)
  /\ world_after run = w
  /\ ((forall region, In region regions -> snd (paginate cloud region w) = None) ->
      outcome run = Returned tt)
  /\ (forall e, outcome run = Raised e ->
        exists region, In region regions
                       /\ snd (paginate cloud region w) = Some e).
Proof.
  intros Hact. induction regions as [|region regions IH]; simpl.
  - repeat split; [constructor | discriminate].
  - destruct (execute_region_unknown_action env region w Hact)
      as (Hev1 & Hw1 & Ho1).
    destruct IH as (Hev & Hw & Hok & Hko).
    match goal with
    | |- context [events (bind ?m ?k w)] =>
        destruct (bind_cases m k w)
          as [([] & Ho & -> & -> & ->) | (e & Ho & -> & -> & ->)]
    end; rewrite Ho in Ho1; rewrite ?Hw1.
    + repeat split.
      * apply Forall_app. now split.
      * assumption.
      * intros Hall. apply Hok. intros r Hr. apply Hall. now right.
      * intros e He. destruct (Hko e He) as (r & Hr & Hp).
        exists r. split; [now right | assumption].
    + repeat split; try assumption.
      * intros Hall. specialize (Hall region (or_introl eq_refl)).
        rewrite Hall in Ho1. discriminate.
      * intros e' He'. injection He' as <-.
        exists region. split; [now left|].
        destruct (snd (paginate cloud region w)); congruence.
Qed.

(** C5. With an action that is none of [enable], [start], [disable] and
    [stop], compared as written, [_execute] sends no command in any region
    and leaves the world as it found it.  It raises nothing of its own: when
    the describe requests of the configured regions do not raise it returns
    the success response, and an exception it ends with is one that a
    describe request of a configured region raised. *)
Theorem unknown_action_is_noop (env : Environ)
    (event : LambdaEvent) (context : LambdaContext) (w : World) :
  str_in (ACTION env) ["enable"; "start"; "disable"; "stop"] = false ->
  let run := _execute cloud response_ok env event context w in
  commands (events run) = []
  /\ world_after run = w
  /\ ((forall region, In region (AWS_REGIONS env) ->
         snd (paginate cloud region w) = None) ->
      outcome run = Returned response_ok)
  /\ (forall e, outcome run = Raised e ->
        exists region, In region (AWS_REGIONS env)
                       /\ snd (paginate cloud region w) = Some e).
Proof.
  intros Hact run.
  destruct (for_each_unknown_action env (AWS_REGIONS env) w Hact)
    as (Hev & Hw & Hok & Hko).
  unfold run. rewrite execute_unfold.
  destruct (outcome (for_each (AWS_REGIONS env) (execute_region cloud env) w))
    as [u|e] eqn:Ho; simpl.
  - repeat split; try assumption; [|discriminate].
    apply no_command_commands. constructor; [reflexivity|].
    apply Forall_app. split; [assumption | now constructor].
  - repeat split; try assumption.
    + apply no_command_commands. now constructor.
    + intros Hall. specialize (Hok Hall). congruence.
    + intros e' He'. injection He' as <-. now apply Hko.
Qed.

Lemma emits_execute_wait_config (env : Environ)
    (event : LambdaEvent) (context : LambdaContext) :
  emits (fun ev => wait_config_ok ev = true)
        (_execute cloud response_ok env event context).
Proof.
  unfold _execute.
  apply emits_bind; [now apply emits_log | intros _].
  apply emits_bind; [|intros _; run_rules].
  apply emits_for_each. intros region _. unfold execute_region.
  apply emits_bind; [now apply emits_log | intros _].
  apply emits_bind.
  - eapply emits_weaken; [|apply emits_get]. now intros [r o|c o|l s a].
  - intros groups. apply emits_bind; [now apply emits_log | intros _].
    destruct (0 <? List.length groups)%nat; [|apply emits_ret].
    destruct (str_in (ACTION env) ["enable"; "start"]).
    + eapply emits_weaken; [|apply emits_start]. now intros ev [H _].
    + destruct (str_in (ACTION env) ["disable"; "stop"]); [|apply emits_ret].
      eapply emits_weaken; [|apply emits_stop].
      intros [r o|[]|l s a] [H _]; simpl in *; auto; discriminate.
Qed.

(** C6. Every wait that [_execute] sends carries a delay of 15 seconds and
    30 attempts at most.  When a wait raises, as it does when its attempts
    are used up, it is the last event of the invocation and its exception is
    the outcome of [_execute]; in the start workflow it is the wait of one
    group of the list, sent after the plans of the groups before it and the
    starts of its own instances, and nothing follows it: the group is not
    resumed. *)
Theorem wait_timeout_is_fatal (env : Environ)
    (event : LambdaEvent) (context : LambdaContext) (w : World) :
  (let run := _execute cloud response_ok env event context w in
   Forall (fun ev => wait_config_ok ev = true) (events run)
   /\ forall pre rg ids delay max_attempts e post,
        events run
        = pre ++ EvCommand (instance_running_wait rg ids delay max_attempts)
                   (Some e) :: post ->
        delay = 15 /\ max_attempts = 30
        /\ post = [] /\ outcome run = Raised e)
  /\ (forall region groups w',
        let run := _start_ec2_auto_scaling_groups cloud region groups w' in
        forall pre rg ids delay max_attempts e post,
          events run
          = pre ++ EvCommand (instance_running_wait rg ids delay max_attempts)
                     (Some e) :: post ->
          post = [] /\ outcome run = Raised e
          /\ exists done g todo,
               groups = done ++ g :: todo
               /\ rg = region /\ ids = ec2_instance_ids g
               /\ commands pre = start_plan region done
                                 ++ start_calls region (ec2_instance_ids g)).
Proof.
  split.
  - intros run.
    pose proof (emits_execute_wait_config env event context w) as Hcfg.
    fold run in Hcfg. split; [assumption|].
    intros pre rg ids delay max_attempts e post Hev.
    destruct (sound_execute cloud response_ok env event context w) as [Hfs _].
    fold run in Hfs.
    destruct (fail_stop_raised run pre _ e post Hfs Hev eq_refl)
      as (-> & Ho & _).
    rewrite Hev in Hcfg. apply Forall_app in Hcfg. destruct Hcfg as [_ Hcfg].
    inversion Hcfg as [|? ? Hc _]; subst. simpl in Hc.
    apply andb_true_iff in Hc. destruct Hc as [Hd Hm].
    apply Nat.eqb_eq in Hd, Hm. now repeat split.
  - intros region groups w' run pre rg ids delay max_attempts e post Hev.
    destruct (sound_start cloud region groups w') as [Hfs _]. fold run in Hfs.
    destruct (fail_stop_raised run pre _ e post Hfs Hev eq_refl)
      as (-> & Ho & _).
    repeat split; try assumption.
    destruct (follows_start cloud region groups w') as (rest & Hplan & _).
    fold run in Hplan.
    rewrite Hev, commands_app, <- app_assoc in Hplan. simpl in Hplan.
    apply flat_map_mid in Hplan.
    destruct Hplan as (done & g & todo & p & q & -> & Hg & Hpre & _).
    apply start_plan_of_wait in Hg. destruct Hg as (-> & -> & _ & _ & ->).
    now exists done, g, todo.
Qed.

(** C9. Two invocations of the handler that differ in the event payload
    and the execution context only, under the same configuration and in the
    same world, run alike, whatever the two JSON payloads and the two
    contexts are: the same events, hence the same cloud API calls with the
    same results, the same outcome, so the same success envelope when they
    return, and the same world afterwards.  The same holds of [_execute],
    which the handler reaches through [process_event]. *)
Theorem execute_ignores_event_and_context (env : Environ)
    (event1 event2 : LambdaEvent) (context1 context2 : LambdaContext) (w : World) :
  (let run1 := lambda_handler cloud response_ok env event1 context1 w in
   let run2 := lambda_handler cloud response_ok env event2 context2 w in
   events run1 = events run2
   /\ api_calls (events run1) = api_calls (events run2)
   /\ outcome run1 = outcome run2
   /\ world_after run1 = world_after run2)
  /\ _execute cloud response_ok env event1 context1 w
     = _execute cloud response_ok env event2 context2 w.
Proof.
  unfold lambda_handler, process_event.
  rewrite !execute_unfold. repeat split.
Qed.

End TopLevel.

(** ** Runs on the small cloud *)

Lemma unknown_action_is_noop_witness :
  let run := _execute Sim.cloud 200
               (Sim.environ "Stop" "us-east-1,eu-west-1") Sim.scheduled_event Sim.context Sim.world0 in
  commands (events run) = []
  /\ world_after run = Sim.world0
  /\ outcome run = Returned 200.
Proof.
  destruct (unknown_action_is_noop Sim.cloud 200
              (Sim.environ "Stop" "us-east-1,eu-west-1") Sim.scheduled_event Sim.context Sim.world0
              eq_refl) as (Hc & Hw & Hok & _).
  split; [exact Hc|]. split; [exact Hw|].
  apply Hok. simpl. intros region [<- | [<- | []]]; reflexivity.
Defined.

Lemma wait_timeout_is_fatal_witness :
  let run := _execute Sim.cloud 200
               (Sim.environ "start" "us-east-1") Sim.scheduled_event Sim.context Sim.world_slow in
  outcome run = Raised (WaiterError "Max attempts exceeded")
  /\ ~ In (resume_processes "us-east-1" "G1") (commands (events run)).
Proof.
  split.
  - apply (proj2 (proj1 (wait_timeout_is_fatal Sim.cloud 200
                           (Sim.environ "start" "us-east-1") Sim.scheduled_event Sim.context
                           Sim.world_slow))
             [EvLog INFO "Starting the operation." [];
              EvLog INFO
                "> Searching Auto Scaling Groups in region %s having tag %s=%s."
                ["us-east-1"; "env"; "prod"];
              EvDescribe "us-east-1" None; EvDescribe "us-east-1" None;
              EvLog INFO
                "> Found %s EC2 Auto Scaling Groups in region %s having tag %s=%s."
                ["1"; "us-east-1"; "env"; "prod"];
              EvLog INFO "> Starting EC2 AutoScaling groups." [];
              EvLog DEBUG ">> Starting AutoScaling Group %s." ["G1"];
              EvLog DEBUG ">>> Starting EC2: %s." ["i-1"];
              EvCommand (start_instances "us-east-1" ["i-1"]) None;
              EvLog DEBUG ">>> Starting EC2: %s." ["i-2"];
              EvCommand (start_instances "us-east-1" ["i-2"]) None]
             "us-east-1" ["i-1"; "i-2"] 15 30
             (WaiterError "Max attempts exceeded") []).
    reflexivity.
  - simpl. intros F.
    repeat (destruct F as [F|F]; try discriminate F). exact F.
Defined.

(** The first scenario of the specification: of [G1], tagged, and [G2],
    untagged, only [G1] is suspended and only its instances are stopped. *)
Example scenario_stop_tagged_group :
  let run := _execute Sim.cloud 200 (Sim.environ "stop" "us-east-1") Sim.scheduled_event Sim.context
               Sim.world0 in
  api_calls (events run)
  = [(suspend_processes "us-east-1" "G1", None);
     (stop_instances "us-east-1" ["i-1"], None);
     (stop_instances "us-east-1" ["i-2"], None)]
  /\ outcome run = Returned 200
  /\ Sim.suspended (world_after run) = ["G1"]
  /\ Sim.stopped (world_after run) = ["i-2"; "i-1"].
Proof. repeat split. Qed.

(** A region whose listing cannot be fetched ends the invocation, whatever
    the action. *)
Example scenario_describe_raises :
  outcome (_execute Sim.cloud 200 (Sim.environ "Stop" "us-east-1,mars-1") Sim.scheduled_event Sim.context
             Sim.world0)
  = Raised (ClientError "EndpointConnectionError").
Proof. reflexivity. Qed.

Example split_regions :
  split "," "us-east-1,eu-west-1" = ["us-east-1"; "eu-west-1"]
  /\ split "," "" = [""].
Proof. split; reflexivity. Qed.

(** * Further properties *)

(** ** The list of regions *)

Lemma split_cons (sep : ascii) (s : string) :
  exists word words, split sep s = word :: words.
Proof.
  destruct s as [|c s]; simpl; [now eexists _, _|].
  destruct (Ascii.eqb c sep); [now eexists _, _|].
  destruct (split sep s); now eexists _, _.
Qed.

Lemma join_split (sep : ascii) (s : string) : join sep (split sep s) = s.
Proof.
  unfold join. induction s as [|c s IH]; simpl; [reflexivity|].
  destruct (split_cons sep s) as (word & words & Hs). rewrite Hs in *.
  destruct (Ascii.eqb c sep) eqn:Hc.
  - apply Ascii.eqb_eq in Hc. subst c.
    change (String.concat (String sep "") ("" :: word :: words))
      with (String sep (String.concat (String sep "") (word :: words))).
    now rewrite IH.
  - destruct words as [|x xs]; simpl in *; now rewrite ?IH.
Qed.

Lemma split_comma_free (sep : ascii) (s : string) :
  Forall (fun word => contains sep word = false) (split sep s).
Proof.
  induction s as [|c s IH]; simpl; [now constructor|].
  destruct (Ascii.eqb c sep) eqn:Hc; [now constructor|].
  destruct (split sep s) as [|word words]; [now constructor; simpl; rewrite ?Hc|].
  inversion IH; subst. constructor; [simpl; now rewrite Hc|assumption].
Qed.

Lemma split_word (sep : ascii) (word : string) :
  contains sep word = false -> split sep word = [word].
Proof.
  induction word as [|c word IH]; simpl; [reflexivity|].
  intros H. apply orb_false_iff in H. destruct H as [Hc Hw].
  now rewrite Hc, (IH Hw).
Qed.

Lemma split_app (sep : ascii) (word rest : string) :
  contains sep word = false ->
  split sep (word ++ String sep rest)%string = word :: split sep rest.
Proof.
  induction word as [|c word IH]; simpl.
  - now rewrite Ascii.eqb_refl.
  - intros H. apply orb_false_iff in H. destruct H as [Hc Hw].
    now rewrite Hc, (IH Hw).
Qed.

Lemma split_join (sep : ascii) (words : list string) :
  words <> [] ->
  Forall (fun word => contains sep word = false) words ->
  split sep (join sep words) = words.
Proof.
  unfold join. induction words as [|word words IH]; [congruence|].
  intros _ Hall. inversion Hall as [|? ? Hw Hws]; subst.
  destruct words as [|x xs].
  - simpl. now apply split_word.
  - change (String.concat (String sep "") (word :: x :: xs))
      with (word ++ String sep (String.concat (String sep "") (x :: xs)))%string.
    rewrite split_app by assumption. f_equal. apply IH; [discriminate | assumption].
Qed.

(** X1. Whatever [PARAM_AWS_REGIONS] holds, the list of regions has at least
    one entry, no entry contains a comma, and the entries joined with commas
    give the parameter back: nothing of it is dropped, an empty parameter
    and an empty piece between two commas included. *)
Theorem regions_split_parameter (env : Environ) :
  AWS_REGIONS env <> []
  /\ Forall (fun region => contains "," region = false) (AWS_REGIONS env)
  /\ join "," (AWS_REGIONS env) = PARAM_AWS_REGIONS env.
Proof.
  unfold AWS_REGIONS. split; [|split].
  - destruct (split_cons "," (PARAM_AWS_REGIONS env)) as (w & ws & ->).
    discriminate.
  - apply split_comma_free.
  - apply join_split.
Qed.

(** X2. A non-empty list of region names without commas, written to
    [PARAM_AWS_REGIONS] joined with commas, is read back as that list, in
    that order. *)
Theorem regions_read_back (env : Environ) (regions : list string) :
  PARAM_AWS_REGIONS env = join "," regions ->
  regions <> [] ->
  Forall (fun region => contains "," region = false) regions ->
  AWS_REGIONS env = regions.
Proof.
  intros Hp Hne Hall. unfold AWS_REGIONS. rewrite Hp. now apply split_join.
Qed.

Lemma regions_read_back_witness :
  AWS_REGIONS (Sim.environ "stop" "us-east-1,eu-west-1")
  = ["us-east-1"; "eu-west-1"].
Proof.
  apply regions_read_back.
  - reflexivity.
  - discriminate.
  - repeat constructor.
Defined.

(** ** More on discovery *)

Lemma scan_pages_app (tag_key tag_value : string)
    (pages1 pages2 : list ResourcePage) :
  scan_pages tag_key tag_value (pages1 ++ pages2)
  = scan_pages tag_key tag_value pages1 ++ scan_pages tag_key tag_value pages2.
Proof.
  rewrite !scan_pages_flat_map. unfold listed. now rewrite !flat_map_app.
Qed.

(** X3. What discovery returns depends on the groups of the listing and their
    order only, not on how the service cut the listing into pages: two
    listings with the same groups in the same order give the same result. *)
Theorem discovery_ignores_page_boundaries {World1 World2 : Type}
    (cloud1 : Cloud World1) (cloud2 : Cloud World2)
    (region1 region2 tag_key tag_value : string)
    (w1 : World1) (w2 : World2) (pages1 pages2 : list ResourcePage) :
  paginate cloud1 region1 w1 = (pages1, None) ->
  paginate cloud2 region2 w2 = (pages2, None) ->
  listed pages1 = listed pages2 ->
  outcome (_get_ec2_auto_scaling_groups_by_tag cloud1 region1 tag_key tag_value w1)
  = outcome (_get_ec2_auto_scaling_groups_by_tag cloud2 region2 tag_key tag_value w2).
Proof.
  intros H1 H2 Hl. rewrite !get_outcome, H1, H2. simpl.
  now rewrite !scan_pages_flat_map, Hl.
Qed.

Lemma discovery_ignores_page_boundaries_witness :
  outcome (_get_ec2_auto_scaling_groups_by_tag
             Sim.cloud "us-east-1" "env" "prod" Paged.world)
  = outcome (_get_ec2_auto_scaling_groups_by_tag
               Sim.cloud "us-west-2" "env" "prod" Paged.world).
Proof.
  apply (discovery_ignores_page_boundaries Sim.cloud Sim.cloud
           "us-east-1" "us-west-2" "env" "prod" Paged.world Paged.world
           Sim.us_east_1 Paged.us_west_2); reflexivity.
Defined.

Lemma existsb_filter_length {A} (p : A -> bool) (l : list A) :
  existsb p l = (0 <? List.length (filter p l))%nat.
Proof.
  induction l as [|x l IH]; simpl; [reflexivity|].
  destruct (p x); simpl; [reflexivity | assumption].
Qed.

Lemma repeat_keeps (tag_key tag_value : string) (resource : AutoScalingGroup) :
  List.length (filter (tag_matches tag_key tag_value) (Tags resource)) <= 1 ->
  repeat (match_of resource) (multiplicity tag_key tag_value resource)
  = if keeps tag_key tag_value resource then [match_of resource] else [].
Proof.
  unfold keeps, multiplicity. rewrite existsb_filter_length. intros Hle.
  destruct (Instances resource) as [|i ins]; simpl.
  - now rewrite andb_false_r.
  - rewrite andb_true_r.
    destruct (List.length (filter (tag_matches tag_key tag_value)
                             (Tags resource))) as [|[|n]];
      simpl; [reflexivity | reflexivity | lia].
Qed.

Lemma keeps_false_multiplicity (tag_key tag_value : string)
    (resource : AutoScalingGroup) :
  keeps tag_key tag_value resource = false ->
  multiplicity tag_key tag_value resource = 0.
Proof.
  unfold keeps, multiplicity. rewrite existsb_filter_length.
  destruct (Instances resource) as [|i ins]; simpl; [reflexivity|].
  rewrite andb_true_r. intros H. apply Nat.ltb_ge in H. lia.
Qed.

(** X4. When no group of the listing carries the configured tag pair more
    than once, discovery returns the groups that pass the test of line 30,
    each once, in the order of the listing, each with its name and its
    instance ids in the order they were listed. *)
Theorem discovery_in_listing_order {World} (cloud : Cloud World)
    (region tag_key tag_value : string) (w : World)
    (resource_pages : list ResourcePage) :
  paginate cloud region w = (resource_pages, None) ->
  (forall resource, In resource (listed resource_pages) ->
     List.length (filter (tag_matches tag_key tag_value) (Tags resource)) <= 1) ->
  outcome (_get_ec2_auto_scaling_groups_by_tag cloud region tag_key tag_value w)
  = Returned (map match_of
                (filter (keeps tag_key tag_value) (listed resource_pages))).
Proof.
  intros Hp Hone. rewrite get_outcome, Hp. simpl. f_equal.
  rewrite scan_pages_flat_map. revert Hone.
  generalize (listed resource_pages) as l.
  induction l as [|resource l IH]; intros Hone; simpl; [reflexivity|].
  rewrite repeat_keeps by (apply Hone; now left).
  rewrite IH by (intros r Hr; apply Hone; now right).
  now destruct (keeps tag_key tag_value resource).
Qed.

Lemma discovery_in_listing_order_witness :
  outcome (_get_ec2_auto_scaling_groups_by_tag
             Sim.cloud "us-east-1" "env" "prod" Sim.world0)
  = Returned [Sim.m_G1].
Proof.
  apply (discovery_in_listing_order Sim.cloud "us-east-1" "env" "prod"
           Sim.world0 Sim.us_east_1).
  - reflexivity.
  - simpl. intros resource [<- | [<- | [<- | []]]]; simpl; lia.
Defined.

(** ** More rules *)

(** Sequencing, with what the first part is known to return. *)
Lemma emits_bind_post {World A B} (P : Event -> Prop) (Q : A -> Prop)
    (m : M World A) (k : A -> M World B) :
  (forall w a, outcome (m w) = Returned a -> Q a) ->
  emits P m -> (forall a, Q a -> emits P (k a)) -> emits P (bind m k).
Proof.
  intros Hq Hm Hk w. unfold bind. specialize (Hm w).
  destruct (outcome (m w)) as [a|e] eqn:Ho; simpl.
  - apply Forall_app. split; [assumption | now apply Hk, (Hq w)].
  - assumption.
Qed.

Lemma bind_ext {World A B} (m : M World A) (k1 k2 : A -> M World B) (w : World) :
  (forall a w', k1 a w' = k2 a w') -> bind m k1 w = bind m k2 w.
Proof.
  intros H. unfold bind. destruct (outcome (m w)); [now rewrite H | reflexivity].
Qed.

Lemma for_each_ext {World A} (xs : list A) (body1 body2 : A -> M World unit)
    (w : World) :
  (forall x w', body1 x w' = body2 x w') ->
  for_each xs body1 w = for_each xs body2 w.
Proof.
  intros H. revert w; induction xs as [|x xs IH]; intros w; simpl;
    [reflexivity|].
  unfold bind. rewrite H.
  destruct (outcome (body2 x w)); [now rewrite IH | reflexivity].
Qed.

Lemma commands_Forall (Q : Command -> Prop) (evs : list Event) :
  Forall (fun ev => match ev with EvCommand c _ => Q c | _ => True end) evs ->
  Forall Q (commands evs).
Proof.
  unfold commands.
  induction evs as [|[r o|c o|l s a] evs IH]; intros H; inversion H; subst;
    simpl; auto.
Qed.

Lemma start_plan_of_start region g p rg ids q :
  start_plan_of region g = p ++ start_instances rg ids :: q ->
  exists before i after,
    ec2_instance_ids g = before ++ i :: after
    /\ rg = region /\ ids = [i]
    /\ p = start_calls region before.
Proof.
  unfold start_plan_of. intros H. apply app_eq_mid in H.
  destruct H as [(mid & H & _) | (p' & _ & H)].
  - unfold start_calls in H. apply map_eq_app in H.
    destruct H as (before & l2 & Hids & <- & H).
    apply map_eq_cons in H. destruct H as (i & after & -> & Hi & _).
    injection Hi as <- <-. now exists before, i, after.
  - destruct p' as [|c p']; simpl in H; [discriminate|].
    injection H as _ H. destruct p' as [|c' p']; simpl in H; [discriminate|].
    injection H as _ H. now destruct p'.
Qed.


(** ** More on the workflows and the top level *)

Lemma scan_pages_ids (tag_key tag_value : string)
    (pages : list ResourcePage) (m : Ec2AutoScalingGroup) :
  In m (scan_pages tag_key tag_value pages) -> ec2_instance_ids m <> [].
Proof.
  intros H. apply scan_pages_In in H.
  destruct H as (resource & _ & -> & _ & Hi). simpl.
  destruct (Instances resource); [congruence | discriminate].
Qed.

Lemma stop_family_not_start (action : string) :
  str_in action ["disable"; "stop"] = true ->
  str_in action ["enable"; "start"] = false.
Proof.
  unfold str_in. simpl. rewrite !orb_false_r. intros H.
  apply orb_true_iff in H. destruct H as [H|H]; apply String.eqb_eq in H;
    subst; reflexivity.
Qed.

Section Invocation.

Context {World : Type} (cloud : Cloud World).
Context {Response : Type} (response_ok : Response).

(** What holds of the events of the two workflows, of the describe requests
    and of the log records of the loop over the regions holds of every event
    of that loop. *)
Lemma emits_execute_region (P : Event -> Prop) (env : Environ) (region : string) :
  (forall level msg args,
     msg <> "Operation completed successfully." -> P (EvLog level msg args)) ->
  (forall raised, P (EvDescribe region raised)) ->
  (forall groups,
     (forall g, In g groups -> ec2_instance_ids g <> []) ->
     str_in (ACTION env) ["enable"; "start"] = true ->
     emits P (_start_ec2_auto_scaling_groups cloud region groups)) ->
  (forall groups,
     str_in (ACTION env) ["enable"; "start"] = false ->
     str_in (ACTION env) ["disable"; "stop"] = true ->
     emits P (_stop_ec2_auto_scaling_groups cloud region groups)) ->
  emits P (execute_region cloud env region).
Proof.
  intros Hlog Hdesc Hstart Hstop. unfold execute_region.
  apply emits_bind; [apply emits_log, Hlog; discriminate | intros _].
  apply (emits_bind_post P (fun groups =>
           forall g, In g groups -> ec2_instance_ids g <> [])).
  - intros w groups Ho. rewrite get_outcome in Ho.
    destruct (snd (paginate cloud region w)); [discriminate|].
    injection Ho as <-. intros g. apply scan_pages_ids.
  - eapply emits_weaken; [|apply emits_get].
    intros [r o|c o|l s a] H; simpl in H; try discriminate.
    apply String.eqb_eq in H. subst r. apply Hdesc.
  - intros groups Hids.
    apply emits_bind; [apply emits_log, Hlog; discriminate | intros _].
    destruct (0 <? List.length groups)%nat; [|apply emits_ret].
    destruct (str_in (ACTION env) ["enable"; "start"]) eqn:Hs; [now apply Hstart|].
    destruct (str_in (ACTION env) ["disable"; "stop"]) eqn:Ht;
      [now apply Hstop | apply emits_ret].
Qed.

Lemma emits_start_waits (region : string) (groups : list Ec2AutoScalingGroup) :
  (forall g, In g groups -> ec2_instance_ids g <> []) ->
  emits (fun ev => wait_names_instances ev = true)
        (_start_ec2_auto_scaling_groups cloud region groups).
Proof.
  intros Hids. unfold _start_ec2_auto_scaling_groups.
  apply emits_bind; [apply emits_client | intros _].
  apply emits_bind; [apply emits_client | intros _].
  apply emits_bind; [now apply emits_log | intros _].
  apply emits_for_each. intros g Hg.
  apply emits_bind; [now apply emits_log | intros _].
  apply emits_bind; [run_rules|intros _].
  apply emits_bind; [|run_rules].
  apply emits_send. intros raised. simpl.
  specialize (Hids g Hg). now destruct (ec2_instance_ids g).
Qed.

(** X5. Every wait that [_execute] sends names at least one instance: the
    groups that reach the start workflow come from discovery, which records
    no group without instances. *)
Theorem execute_waits_for_some_instance (env : Environ)
    (event : LambdaEvent) (context : LambdaContext) (w : World) :
  forall rg ids delay max_attempts raised,
    In (EvCommand (instance_running_wait rg ids delay max_attempts) raised)
       (events (_execute cloud response_ok env event context w)) ->
    ids <> [].
Proof.
  assert (He : emits (fun ev => wait_names_instances ev = true)
                 (_execute cloud response_ok env event context)).
  { unfold _execute.
    apply emits_bind; [now apply emits_log | intros _].
    apply emits_bind; [|intros _; run_rules].
    apply emits_for_each. intros region _.
    apply emits_execute_region; try reflexivity.
    - intros groups Hids _. now apply emits_start_waits.
    - intros groups _ _. eapply emits_weaken; [|apply emits_stop].
      intros [r o|[]|l s a] [H _]; simpl in *; auto; discriminate. }
  intros rg ids delay max_attempts raised Hin.
  specialize (He w). rewrite Forall_forall in He.
  apply He in Hin. simpl in Hin. now destruct ids.
Qed.

Lemma scan_pages_nothing_kept (tag_key tag_value : string)
    (pages : list ResourcePage) :
  (forall resource, In resource (listed pages) ->
     keeps tag_key tag_value resource = false) ->
  scan_pages tag_key tag_value pages = [].
Proof.
  rewrite scan_pages_flat_map. generalize (listed pages) as l.
  induction l as [|resource l IH]; intros H; simpl; [reflexivity|].
  rewrite keeps_false_multiplicity by (apply H; now left). simpl.
  apply IH. intros r Hr. apply H. now right.
Qed.

Lemma for_each_nothing_kept (env : Environ) (regions : list string) (w : World) :
  (forall region, In region regions ->
     exists pages,
       paginate cloud region w = (pages, None)
       /\ forall resource, In resource (listed pages) ->
            keeps (RESOURCE_TAG_KEY env) (RESOURCE_TAG_VALUE env) resource = false) ->
  let run := for_each regions (execute_region cloud env) w in
  events run
  = flat_map (fun region =>
                searching env region
                :: map (fun _ => EvDescribe region None)
                       (fst (paginate cloud region w))
                   ++ [found env region 0])
             regions
  /\ world_after run = w
  /\ outcome run = Returned tt.
Proof.
  induction regions as [|region regions IH]; intros H; simpl.
  - now repeat split.
  - destruct (H region (or_introl eq_refl)) as (pages & Hp & Hnone).
    pose proof (execute_region_run cloud env region w pages Hp) as Hrun.
    simpl in Hrun. rewrite (scan_pages_nothing_kept _ _ _ Hnone) in Hrun.
    unfold branch in Hrun. simpl in Hrun.
    destruct IH as (Hev & Hw & Ho); [intros r Hr; apply H; now right|].
    unfold bind. rewrite Hrun. simpl. rewrite Hp. simpl.
    repeat split; try assumption.
    rewrite Hev. reflexivity.
Qed.

(** X6. Whatever the action, when in every configured region the listing is
    fetched and no group of it passes the test of line 30, the workflows are
    not entered: the trace of [_execute] is the opening record, then for
    every region its search record, the describe requests of its listing and
    the record of zero groups found, then the closing record, with no
    command and no log record of either workflow; the world is left as it
    was found, and the success response is returned. *)
Theorem nothing_kept_is_noop (env : Environ)
    (event : LambdaEvent) (context : LambdaContext) (w : World) :
  (forall region, In region (AWS_REGIONS env) ->
     exists pages,
       paginate cloud region w = (pages, None)
       /\ forall resource, In resource (listed pages) ->
            keeps (RESOURCE_TAG_KEY env) (RESOURCE_TAG_VALUE env) resource = false) ->
  let run := _execute cloud response_ok env event context w in
  events run
  = EvLog INFO "Starting the operation." []
    :: flat_map (fun region =>
                   searching env region
                   :: map (fun _ => EvDescribe region None)
                          (fst (paginate cloud region w))
                      ++ [found env region 0])
                (AWS_REGIONS env)
       ++ [completed]
  /\ commands (events run) = []
  /\ world_after run = w
  /\ outcome run = Returned response_ok.
Proof.
  intros H run.
  destruct (for_each_nothing_kept env (AWS_REGIONS env) w H) as (Hev & Hw & Ho).
  unfold run. rewrite execute_unfold, Ho. simpl. rewrite Hev.
  repeat split; [|assumption].
  apply no_command_commands. constructor; [reflexivity|].
  apply Forall_app. split; [|now constructor].
  apply Forall_forall. intros ev Hin. apply in_flat_map in Hin.
  destruct Hin as (region & _ & [<- | Hin]); [reflexivity|].
  apply in_app_or in Hin. destruct Hin as [Hin | [<- | []]]; [|reflexivity].
  apply in_map_iff in Hin. now destruct Hin as (page & <- & _).
Qed.

(** X7. The action is read through its two membership tests only: two
    configurations with the same tag pair and regions whose actions fall on
    the same side of both tests run alike.  So [enable] runs as [start], and
    [disable] as [stop]. *)
Theorem action_matters_by_family (env1 env2 : Environ)
    (event : LambdaEvent) (context : LambdaContext) (w : World) :
  PARAM_RESOURCE_TAG_KEY env1 = PARAM_RESOURCE_TAG_KEY env2 ->
  PARAM_RESOURCE_TAG_VALUE env1 = PARAM_RESOURCE_TAG_VALUE env2 ->
  PARAM_AWS_REGIONS env1 = PARAM_AWS_REGIONS env2 ->
  str_in (ACTION env1) ["enable"; "start"] = str_in (ACTION env2) ["enable"; "start"] ->
  str_in (ACTION env1) ["disable"; "stop"] = str_in (ACTION env2) ["disable"; "stop"] ->
  _execute cloud response_ok env1 event context w
  = _execute cloud response_ok env2 event context w.
Proof.
  intros Hk Hv Hr Hs Ht. rewrite !execute_unfold.
  assert (Hloop : for_each (AWS_REGIONS env1) (execute_region cloud env1) w
                  = for_each (AWS_REGIONS env2) (execute_region cloud env2) w).
  { unfold AWS_REGIONS. rewrite Hr. apply for_each_ext.
    intros region w'. unfold execute_region, RESOURCE_TAG_KEY, RESOURCE_TAG_VALUE.
    now rewrite Hk, Hv, Hs, Ht. }
  now rewrite Hloop.
Qed.

End Invocation.

Lemma action_matters_by_family_witness :
  _execute Sim.cloud 200 (Sim.environ "disable" "us-east-1") Sim.scheduled_event Sim.context Sim.world0
  = _execute Sim.cloud 200 (Sim.environ "stop" "us-east-1") Sim.scheduled_event Sim.context Sim.world0.
Proof.
  apply action_matters_by_family; reflexivity.
Defined.

Lemma nothing_kept_is_noop_witness :
  let env := {| PARAM_ACTION := "stop"; PARAM_RESOURCE_TAG_KEY := "env";
                PARAM_RESOURCE_TAG_VALUE := "staging";
                PARAM_AWS_REGIONS := "us-east-1,eu-west-1" |} in
  let run := _execute Sim.cloud 200 env Sim.scheduled_event Sim.context
               Sim.world0 in
  events run
  = [EvLog INFO "Starting the operation." [];
     searching env "us-east-1";
     EvDescribe "us-east-1" None; EvDescribe "us-east-1" None;
     found env "us-east-1" 0;
     searching env "eu-west-1";
     EvDescribe "eu-west-1" None;
     found env "eu-west-1" 0;
     completed]
  /\ commands (events run) = []
  /\ world_after run = Sim.world0
  /\ outcome run = Returned 200.
Proof.
  apply (nothing_kept_is_noop Sim.cloud 200
           {| PARAM_ACTION := "stop"; PARAM_RESOURCE_TAG_KEY := "env";
              PARAM_RESOURCE_TAG_VALUE := "staging";
              PARAM_AWS_REGIONS := "us-east-1,eu-west-1" |}
           Sim.scheduled_event Sim.context Sim.world0).
  simpl. intros region [<- | [<- | []]].
  - exists Sim.us_east_1. split; [reflexivity|].
    simpl. intros resource [<- | [<- | [<- | []]]]; reflexivity.
  - exists [ {| AutoScalingGroups := [] |} ]. split; [reflexivity|].
    intros resource [].
Defined.

Lemma execute_waits_for_some_instance_witness :
  ["i-1"; "i-2"] <> [].
Proof.
  apply (execute_waits_for_some_instance Sim.cloud 200
           (Sim.environ "start" "us-east-1") Sim.scheduled_event Sim.context Sim.world0
           "us-east-1" ["i-1"; "i-2"] 15 30 None).
  simpl. do 11 right. now left.
Defined.

Section Families.

Context {World : Type} (cloud : Cloud World).
Context {Response : Type} (response_ok : Response).

Lemma emits_execute_loop (P : Event -> Prop) (env : Environ) :
  (forall region, emits P (execute_region cloud env region)) ->
  forall w, Forall P (events (for_each (AWS_REGIONS env)
                                (execute_region cloud env) w)).
Proof.
  intros H. apply emits_for_each. intros region _. apply H.
Qed.

(** X8. The two workflows do not mix.  With an action of the start family
    every command of [_execute] is a start of one instance, a wait or a
    resume; with an action of the stop family every command is a suspend or
    a stop of one instance. *)
Theorem action_families_do_not_mix (env : Environ)
    (event : LambdaEvent) (context : LambdaContext) (w : World) :
  let sent := commands (events (_execute cloud response_ok env event context w)) in
  (str_in (ACTION env) ["enable"; "start"] = true ->
   Forall (fun c => start_workflow_command c = true) sent)
  /\ (str_in (ACTION env) ["disable"; "stop"] = true ->
      Forall (fun c => stop_workflow_command c = true) sent).
Proof.
  intros sent. unfold sent. rewrite execute_unfold.
  assert (Hsent : forall Q : Command -> Prop,
            (forall region,
               emits (fun ev => match ev with EvCommand c _ => Q c | _ => True end)
                     (execute_region cloud env region)) ->
            Forall Q (commands (events
              match outcome (for_each (AWS_REGIONS env) (execute_region cloud env) w) with
              | Returned _ =>
                  {| outcome := Returned response_ok;
                     world_after := world_after (for_each (AWS_REGIONS env)
                                                   (execute_region cloud env) w);
                     events := EvLog INFO "Starting the operation." []
                               :: events (for_each (AWS_REGIONS env)
                                            (execute_region cloud env) w)
                                  ++ [EvLog INFO "Operation completed successfully." []] |}
              | Raised e =>
                  {| outcome := Raised e;
                     world_after := world_after (for_each (AWS_REGIONS env)
                                                   (execute_region cloud env) w);
                     events := EvLog INFO "Starting the operation." []
                               :: events (for_each (AWS_REGIONS env)
                                            (execute_region cloud env) w) |}
              end))).
  { intros Q HQ. apply commands_Forall.
    pose proof (emits_execute_loop _ env HQ w) as Hloop.
    destruct (outcome _); simpl; constructor; auto.
    apply Forall_app. split; [assumption | now constructor]. }
  split; intros Hact; apply Hsent; intros region;
    apply emits_execute_region; try exact (fun _ => I); try (intros; exact I).
  - intros groups _ _. unfold _start_ec2_auto_scaling_groups. run_rules; exact I.
  - intros groups Hs _. congruence.
  - intros groups _ Hs.
    rewrite (stop_family_not_start _ Hact) in Hs. discriminate.
  - intros groups _ _. unfold _stop_ec2_auto_scaling_groups. run_rules; exact I.
Qed.



(** X11. [_execute] handles no exception.  A request that raises, describe
    or command, is the last event of the invocation and its exception is the
    outcome.  An invocation that raises either ends with the request that
    raised, or saw no request raise and ends with the exception of a client
    that could not be created, as for a region name that is not well formed.
    One that returns returns the success response and saw no exception.
    Either way the world it leaves is the one made by the commands it
    sent. *)
Theorem execute_handles_no_exception (env : Environ)
    (event : LambdaEvent) (context : LambdaContext) (w : World) :
  let run := _execute cloud response_ok env event context w in
  world_after run = replay cloud (events run) w
  /\ (forall response, outcome run = Returned response ->
        response = response_ok /\ clean (events run))
  /\ (forall e, outcome run = Raised e ->
        (exists pre ev,
           events run = pre ++ [ev] /\ raised_by ev = Some e /\ clean pre)
        \/ (clean (events run)
            /\ exists service region, client cloud service region = Some e))
  /\ (forall pre ev e post,
        events run = pre ++ ev :: post -> raised_by ev = Some e ->
        post = [] /\ outcome run = Raised e).
Proof.
  intros run.
  destruct (sound_execute cloud response_ok env event context w) as [Hfs Hw].
  fold run in Hfs, Hw. split; [assumption|].
  split; [|split].
  - intros response Ho. unfold fail_stop in Hfs. rewrite Ho in Hfs.
    split; [|assumption].
    unfold run in Ho. rewrite execute_unfold in Ho.
    destruct (outcome (for_each _ _ w)); simpl in Ho; congruence.
  - intros e Ho. unfold fail_stop in Hfs. now rewrite Ho in Hfs.
  - intros pre ev e post Hev Hr.
    destruct (fail_stop_raised run pre ev e post Hfs Hev Hr) as (-> & Ho & _).
    now split.
Qed.

(** X12. When the start of an instance raises in the start workflow, the
    workflow ends there with that exception: what was sent before is the
    whole plan of the groups before its group and the starts of the
    instances before it in the group, so its group is neither waited for
    nor resumed, and no later instance or group is touched. *)
Theorem start_failure_leaves_group_unresumed
    (region : string) (groups : list Ec2AutoScalingGroup) (w : World) :
  let run := _start_ec2_auto_scaling_groups cloud region groups w in
  forall pre rg ids e post,
    events run = pre ++ EvCommand (start_instances rg ids) (Some e) :: post ->
    post = [] /\ outcome run = Raised e
    /\ world_after run
       = fst (request cloud (start_instances rg ids) (replay cloud pre w))
    /\ exists done g todo before i after,
         groups = done ++ g :: todo
         /\ ec2_instance_ids g = before ++ i :: after
         /\ rg = region /\ ids = [i]
         /\ commands pre = start_plan region done ++ start_calls region before.
Proof.
  intros run pre rg ids e post Hev.
  destruct (sound_start cloud region groups w) as [Hfs Hw]. fold run in Hfs, Hw.
  destruct (fail_stop_raised run pre _ e post Hfs Hev eq_refl) as (-> & Ho & _).
  repeat split; try assumption.
  - now rewrite Hw, Hev, replay_app.
  - destruct (follows_start cloud region groups w) as (rest & Hplan & _).
    fold run in Hplan.
    rewrite Hev, commands_app, <- app_assoc in Hplan. simpl in Hplan.
    apply flat_map_mid in Hplan.
    destruct Hplan as (done & g & todo & p & q & -> & Hg & Hpre & _).
    apply start_plan_of_start in Hg.
    destruct Hg as (before & i & after & Hids & -> & -> & ->).
    now exists done, g, todo, before, i, after.
Qed.

(** X13. The log record [Operation completed successfully.] is written
    exactly when [_execute] returns: an invocation that raised has not
    logged it. *)
Theorem completed_logged_iff_returned (env : Environ)
    (event : LambdaEvent) (context : LambdaContext) (w : World) :
  let run := _execute cloud response_ok env event context w in
  In completed (events run) <-> exists response, outcome run = Returned response.
Proof.
  intros run. unfold run. rewrite execute_unfold.
  assert (Hloop : Forall (fun ev => ev <> completed)
                    (events (for_each (AWS_REGIONS env)
                               (execute_region cloud env) w))).
  { apply emits_execute_loop. intros region.
    apply emits_execute_region.
    - intros level msg args Hm F. injection F as _ F _. now apply Hm.
    - discriminate.
    - intros groups _ _. unfold _start_ec2_auto_scaling_groups.
      run_rules; discriminate.
    - intros groups _ _. unfold _stop_ec2_auto_scaling_groups.
      run_rules; discriminate. }
  destruct (outcome (for_each _ _ w)) as [u|e]; simpl.
  - split; [now eexists|]. intros _. right. apply in_or_app. right. now left.
  - split; [|now intros [response F]].
    intros [F | F]; [discriminate F|].
    rewrite Forall_forall in Hloop. now apply Hloop in F.
Qed.

End Families.

(** ** More runs on the small cloud *)

Lemma action_families_do_not_mix_witness :
  Forall (fun c => stop_workflow_command c = true)
    (commands (events (_execute Sim.cloud 200 (Sim.environ "stop" "us-east-1")
                         Sim.scheduled_event Sim.context Sim.world0))).
Proof.
  apply (proj2 (action_families_do_not_mix Sim.cloud 200
                  (Sim.environ "stop" "us-east-1") Sim.scheduled_event Sim.context Sim.world0)).
  reflexivity.
Defined.



Lemma execute_handles_no_exception_witness :
  let run := _execute Sim.cloud 200 (Sim.environ "stop" "us-east-1, eu-west-1")
               Sim.scheduled_event Sim.context Sim.world0 in
  (exists pre ev,
     events run = pre ++ [ev]
     /\ raised_by ev = Some (InvalidRegionError " eu-west-1") /\ clean pre)
  \/ (clean (events run)
      /\ exists service region,
           client Sim.cloud service region
           = Some (InvalidRegionError " eu-west-1")).
Proof.
  apply (proj1 (proj2 (proj2 (execute_handles_no_exception Sim.cloud 200
                                (Sim.environ "stop" "us-east-1, eu-west-1")
                                Sim.scheduled_event Sim.context Sim.world0)))
           (InvalidRegionError " eu-west-1")).
  reflexivity.
Defined.

Lemma start_failure_leaves_group_unresumed_witness :
  let run := _start_ec2_auto_scaling_groups Sim.cloud "us-east-1" [Sim.m_G1]
               Sim.world_protected in
  outcome run = Raised (ClientError "UnauthorizedOperation")
  /\ commands (events run)
     = [start_instances "us-east-1" ["i-1"]; start_instances "us-east-1" ["i-2"]].
Proof.
  split; [|reflexivity].
  apply (start_failure_leaves_group_unresumed Sim.cloud "us-east-1" [Sim.m_G1]
           Sim.world_protected
           [EvLog INFO "> Starting EC2 AutoScaling groups." [];
            EvLog DEBUG ">> Starting AutoScaling Group %s." ["G1"];
            EvLog DEBUG ">>> Starting EC2: %s." ["i-1"];
            EvCommand (start_instances "us-east-1" ["i-1"]) None;
            EvLog DEBUG ">>> Starting EC2: %s." ["i-2"]]
           "us-east-1" ["i-2"] (ClientError "UnauthorizedOperation") []).
  reflexivity.
Defined.

Lemma execute_ignores_event_and_context_witness :
  lambda_handler Sim.cloud 200 (Sim.environ "stop" "us-east-1")
    Sim.scheduled_event Sim.context Sim.world0
  = lambda_handler Sim.cloud 200 (Sim.environ "stop" "us-east-1")
      Sim.manual_event Sim.context' Sim.world0.
Proof.
  apply (proj2 (execute_ignores_event_and_context Sim.cloud 200
                  (Sim.environ "stop" "us-east-1")
                  Sim.scheduled_event Sim.manual_event
                  Sim.context Sim.context' Sim.world0)).
Defined.

(** A region name with a blank in it, as a list written with a blank after
    its comma gives: the first region is processed, the second is searched,
    and creating its client raises before any request for it is sent. *)
Example scenario_region_name_with_blank :
  let run := _execute Sim.cloud 200 (Sim.environ "stop" "us-east-1, eu-west-1")
               Sim.scheduled_event Sim.context Sim.world0 in
  outcome run = Raised (InvalidRegionError " eu-west-1")
  /\ commands (events run)
     = [suspend_processes "us-east-1" "G1";
        stop_instances "us-east-1" ["i-1"];
        stop_instances "us-east-1" ["i-2"]]
  /\ last (events run) completed
     = searching (Sim.environ "stop" "us-east-1, eu-west-1") " eu-west-1"
  /\ ~ In (EvDescribe " eu-west-1" (Some (InvalidRegionError " eu-west-1")))
          (events run).
Proof.
  repeat split. simpl. intros F.
  repeat (destruct F as [F|F]; try discriminate F). exact F.
Qed.
